(** * Port scanner: parsing of port specifications, service inference and
      the asynchronous scan engine

    A shallow embedding of [port_scanner/utils.py] and
    [port_scanner/scanner.py].

    Conventions.
    - Python [str] is a Rocq [string], one [ascii] per code point, so that
      a text is a sequence of code points below 256.  The character tables
      below (white space, decimal digits, letter case) are the rows of
      Python's tables for these code points.
    - The decoding of received bytes is followed on bytes below 0x80, which
      are their own characters; what is proved of the decoded text is
      stated for such bytes.
    - Python [int] is [Z]; [bytes] is [list byte]; a time-out in seconds is
      a rational, which the code only passes on.
    - [Optional[T]] is [option T], [None] being [None].
    - A [set] of integers is a [gset Z]; a [dict] is a [gmap].
    - An exception is a value: a function that can raise returns a
      [result], a coroutine is a tree of awaits ([coro]).
    - What the source takes from the outside is a parameter: [net] holds the
      answers of the resolver, of the peers and of the operating system,
      [sched] the order in which the event loop resumes the tasks.
    - Memory and running time are not modelled. *)

From Stdlib Require Import ZArith QArith.QArith_base Ascii String Strings.Byte List
  Sorting.Sorted.
From stdpp Require Import base option list sorting gmap sets strings.

Local Open Scope string_scope.
Local Open Scope list_scope.
Local Open Scope Z_scope.

#[local] Set Warnings "-clear-no-such-hyp".

(** ** Python text primitives *)

Definition ascii_code (c : ascii) : Z := Z.of_N (N_of_ascii c).

(** [str.isspace] on one character: TAB, LF, VT, FF, CR, the four
    separators FS, GS, RS, US, the space, the next-line control U+0085 and
    the no-break space U+00A0. *)
Definition is_space (c : ascii) : bool :=
  let n := ascii_code c in
  ((9 <=? n) && (n <=? 13)) || ((28 <=? n) && (n <=? 32))
  || (n =? 133) || (n =? 160).

(** White space as the integer parser sees it: TAB, LF, VT, FF, CR and the
    space; and U+0085 and U+00A0, which [int] turns into spaces before it
    parses a text that is not ASCII, as a text that holds one of them is.
    The separators FS, GS, RS, US are not passed over. *)
Definition is_c_space (c : ascii) : bool :=
  let n := ascii_code c in
  ((9 <=? n) && (n <=? 13)) || (n =? 32) || (n =? 133) || (n =? 160).

Definition is_digit (c : ascii) : bool :=
  let n := ascii_code c in (48 <=? n) && (n <=? 57).

Definition digit_value (c : ascii) : Z := ascii_code c - 48.

Fixpoint drop_while (p : ascii -> bool) (s : string) : string :=
  match s with
  | String c s' => if p c then drop_while p s' else s
  | EmptyString => EmptyString
  end.

Fixpoint drop_while_end (p : ascii -> bool) (s : string) : string :=
  match s with
  | String c s' =>
      match drop_while_end p s' with
      | EmptyString => if p c then EmptyString else String c EmptyString
      | r => String c r
      end
  | EmptyString => EmptyString
  end.

(** [s.strip()] *)
Definition strip (s : string) : string :=
  drop_while_end is_space (drop_while is_space s).

(** [s.split(sep)] for a one-character separator: every occurrence cuts,
    empty pieces are kept, and the empty string gives one empty piece. *)
Fixpoint split (sep : ascii) (s : string) : list string :=
  match s with
  | EmptyString => [EmptyString]
  | String c s' =>
      if Ascii.eqb c sep then EmptyString :: split sep s'
      else match split sep s' with
           | piece :: rest => String c piece :: rest
           | [] => [String c EmptyString]
           end
  end.

(** [s.split(sep, 1)]: cut at the first occurrence only. *)
Fixpoint split_once (sep : ascii) (s : string) : list string :=
  match s with
  | EmptyString => [EmptyString]
  | String c s' =>
      if Ascii.eqb c sep then [EmptyString; s']
      else match split_once sep s' with
           | piece :: rest => String c piece :: rest
           | [] => [String c EmptyString]
           end
  end.

Fixpoint starts_with (p s : string) : bool :=
  match p, s with
  | EmptyString, _ => true
  | String a p', String b s' => Ascii.eqb a b && starts_with p' s'
  | String _ _, EmptyString => false
  end.

(** [sub in s] *)
Fixpoint str_in (sub s : string) : bool :=
  starts_with sub s ||
  match s with
  | String _ s' => str_in sub s'
  | EmptyString => false
  end.

(** The lower-case letter of a capital: of A to Z, and of the capitals
    U+00C0 to U+00DE, but for the multiplication sign U+00D7. *)
Definition lower_char (c : ascii) : ascii :=
  let n := ascii_code c in
  if ((65 <=? n) && (n <=? 90))
     || ((192 <=? n) && (n <=? 222) && negb (n =? 215))
  then ascii_of_N (Z.to_N (n + 32)) else c.

(** [s.lower()] *)
Fixpoint lower (s : string) : string :=
  match s with
  | String c s' => String (lower_char c) (lower s')
  | EmptyString => EmptyString
  end.

(** ** [int(s)]

    The decimal literal grammar of [int]: optional white space, an optional
    sign, digits in which single underscores may separate digits, optional
    white space.  [None] stands for [ValueError]. *)

(** Default of [sys.get_int_max_str_digits()]: a literal with more digits
    is refused with [ValueError]. *)
Definition int_max_str_digits : nat := 4300.

(** Scan of the digit run.  [prev_us] tells whether the previous character
    was an underscore; the result is the value, the number of digits and the
    unread rest. *)
Fixpoint scan_digits (s : string) (prev_us : bool) (acc : Z) (n : nat)
  : option (Z * nat * string) :=
  match s with
  | String c s' =>
      if is_digit c then scan_digits s' false (10 * acc + digit_value c) (S n)
      else if Ascii.eqb c "_" then
        if prev_us then None else scan_digits s' true acc n
      else if prev_us then None else Some (acc, n, s)
  | EmptyString => if prev_us then None else Some (acc, n, EmptyString)
  end.

Definition py_int (s : string) : option Z :=
  let s1 := drop_while is_c_space s in
  let '(sign, s2) :=
    match s1 with
    | String "+" r => (1, r)
    | String "-" r => (-1, r)
    | _ => (1, s1)
    end in
  if starts_with "_" s2 then None
  else
    match scan_digits s2 false 0 0 with
    | Some (v, n, rest) =>
        if (n =? 0)%nat then None
        else if (int_max_str_digits <? n)%nat then None
        else match drop_while is_c_space rest with
             | EmptyString => Some (sign * v)
             | String _ _ => None
             end
    | None => None
    end.

(** ** [range] and [sorted] *)

(** [range(a, b)] as the list of its values. *)
Definition py_range (a b : Z) : list Z := seqZ a (b - a).

Fixpoint insert_by {A : Type} (key : A -> Z) (x : A) (l : list A) : list A :=
  match l with
  | [] => [x]
  | y :: l' => if key x <=? key y then x :: l else y :: insert_by key x l'
  end.

(** [sorted(l, key=key)]: the stable sort of [l] by [key].  A stable sort
    has one result, which this insertion sort computes: an element is put
    in front of the first later element whose key is not smaller. *)
Definition sorted {A : Type} (key : A -> Z) (l : list A) : list A :=
  foldr (insert_by key) [] l.

(** ** utils.py *)

Definition TOP_TCP_PORTS : list Z :=
  [21; 22; 23; 25; 53; 80; 110; 111; 135; 139; 143; 443; 445;
   587; 993; 995; 3306; 3389; 5900; 8080].

Definition SERVICE_MAP : gmap Z string :=
  list_to_map
    [(21, "ftp"); (22, "ssh"); (23, "telnet"); (25, "smtp"); (53, "dns");
     (80, "http"); (110, "pop3"); (143, "imap"); (443, "https");
     (3306, "mysql"); (3389, "rdp"); (5900, "vnc"); (8080, "http-alt")].

(** A [str] in a condition: the empty string is false. *)
Definition truthy_str (s : string) : bool :=
  match s with EmptyString => false | String _ _ => true end.

Definition infer_service (port : Z) (banner : option string) : option string :=
  match SERVICE_MAP !! port with
  | Some label => Some label
  | None =>
      match banner with
      | Some text =>
          if truthy_str text then
            let b := lower text in
            if str_in "ssh" b then Some "ssh"
            else if str_in "http" b || str_in "apache" b || str_in "nginx" b
                 then Some "http"
            else if str_in "smtp" b then Some "smtp"
            else if str_in "mysql" b || str_in "mariadb" b then Some "mysql"
            else if str_in "rdp" b || str_in "mstsc" b then Some "rdp"
            else None
          else None
      | None => None
      end
  end.

(** ** scanner.py: [parse_ports] *)

(** The body of the [try] of the range branch: [None] is the [ValueError]
    of an unpacking or of [int]. *)
Definition range_bounds (part : string) : option (Z * Z) :=
  match split_once "-" part with
  | [start; end_] =>
      match py_int start with
      | Some start_i =>
          match py_int end_ with
          | Some end_i => Some (start_i, end_i)
          | None => None
          end
      | None => None
      end
  | _ => None
  end.

(** One turn of the loop over the comma-separated parts. *)
Definition parse_part (ports : gset Z) (part0 : string) : gset Z :=
  let part := strip part0 in
  if str_in "-" part then
    match range_bounds part with
    | Some (start_i, end_i) =>
        ports ∪ list_to_set (py_range start_i (end_i + 1))
    | None => ports
    end
  else
    match py_int part with
    | Some p => ports ∪ {[ p ]}
    | None => ports
    end.

Definition parse_ports (ports_arg : option string) : list Z :=
  match ports_arg with
  | None => TOP_TCP_PORTS
  | Some s =>
      if truthy_str s then
        let ports := foldl parse_part ∅ (split "," s) in
        sorted id (filter (fun p => 1 <= p <= 65535) (elements ports))
      else TOP_TCP_PORTS
  end.

(** ** Exceptions

    The exception classes the scanner names or meets.  A constructor stands
    both for a raised exception and, in [isinstance], for its class. *)

Inductive exn : Type :=
| Exception
| OSError
| ConnectionRefusedError
| ConnectionResetError
| gaierror                  (* socket.gaierror *)
| TimeoutError              (* asyncio.TimeoutError *)
| IncompleteReadError       (* asyncio.IncompleteReadError *)
| ValueError.

Global Instance exn_eq_dec : EqDecision exn.
Proof. solve_decision. Defined.

(** [isinstance(e, c)]: every class derives from [Exception]; the connection
    errors and [gaierror] derive from [OSError].  The clauses of the source
    that name [OSError] name [asyncio.TimeoutError] as well, so its place
    plays no part. *)
Definition isinstance (e c : exn) : bool :=
  match c with
  | Exception => true
  | OSError =>
      match e with
      | OSError | ConnectionRefusedError | ConnectionResetError | gaierror => true
      | _ => false
      end
  | _ => bool_decide (e = c)
  end.

(** Whether the clause [except (c1, ..., cn)] takes [e]. *)
Definition catches (classes : list exn) (e : exn) : bool :=
  existsb (isinstance e) classes.

Inductive result (A : Type) : Type :=
| Ok (a : A)
| Raise (e : exn).
Arguments Ok {A} a.
Arguments Raise {A} e.

(** ** Coroutines

    A coroutine is the tree of its awaits: it has returned, it has raised,
    or it waits for an operation and goes on with the operation's result. *)

Definition StreamReader := nat.
Definition StreamWriter := nat.

Inductive op : Type -> Type :=
| SemAcquire : op unit
    (* entering [async with semaphore] *)
| SemRelease : op unit
    (* leaving [async with semaphore] *)
| OpenConnection (ip : string) (port : Z) (timeout : Q)
    : op (StreamReader * StreamWriter)
    (* [await asyncio.wait_for(asyncio.open_connection(ip, port), timeout)] *)
| StreamRead (reader : StreamReader) (n : nat) (timeout : Q) : op (list byte)
    (* [await asyncio.wait_for(reader.read(n), timeout)] *)
| WriterClose (writer : StreamWriter) : op unit
    (* [writer.close()] *)
| WaitClosed (writer : StreamWriter) : op unit.
    (* [await writer.wait_closed()] *)

Inductive coro (A : Type) : Type :=
| Return (a : A)
| Throw (e : exn)
| Await {X : Type} (o : op X) (k : result X -> coro A).
Arguments Return {A} a.
Arguments Throw {A} e.
Arguments Await {A X} o k.

Fixpoint bind {A B : Type} (m : coro A) (f : A -> coro B) : coro B :=
  match m with
  | Return a => f a
  | Throw e => Throw e
  | Await o k => Await o (fun r => bind (k r) f)
  end.

Notation "'let*' x ':=' m 'in' f" := (bind m (fun x => f))
  (at level 10, x pattern, m at level 100, f at level 200).

Definition await {X : Type} (o : op X) : coro X :=
  Await o (fun r => match r with Ok x => Return x | Raise e => Throw e end).

(** [try: body / except classes: handler] *)
Fixpoint try_except {A : Type} (body : coro A) (classes : list exn)
    (handler : coro A) : coro A :=
  match body with
  | Return a => Return a
  | Throw e => if catches classes e then handler else Throw e
  | Await o k => Await o (fun r => try_except (k r) classes handler)
  end.

(** [try: body / finally: final]: [final] runs on the normal and on the
    exceptional exit; an exception of [final] takes the place of the
    outcome of [body]. *)
Fixpoint try_finally {A : Type} (body : coro A) (final : coro unit) : coro A :=
  match body with
  | Return a => let* _ := final in Return a
  | Throw e => let* _ := final in Throw e
  | Await o k => Await o (fun r => try_finally (k r) final)
  end.

(** [async with semaphore: body] *)
Definition async_with_semaphore {A : Type} (body : coro A) : coro A :=
  let* _ := await SemAcquire in try_finally body (await SemRelease).

(** ** The network

    What the operating system and the peers answer.  Time-outs are part of
    the answers: an operation bounded by [wait_for] either ends in time or
    raises [TimeoutError]. *)

Record Net : Type := {
  (* whether [socket.inet_aton] accepts the text *)
  inet_aton : string -> bool;
  (* [socket.getaddrinfo(target, None, family=AF_INET)]: the addresses of
     the entries, in order, or the error of the lookup *)
  getaddrinfo : string -> result (list string);
  (* outcome of a bounded connection attempt *)
  open_connection : string -> Z -> Q -> result (StreamReader * StreamWriter);
  (* what a bounded read finds: the bytes that have arrived (none at end of
     stream), or the error of the wait ([TimeoutError]) or of the transport
     (a connection the peer has reset gives [ConnectionResetError]) *)
  stream_data : StreamReader -> Q -> result (list byte);
  (* outcome of waiting for the transport to close *)
  wait_closed : StreamWriter -> result unit
}.

Definition answer (net : Net) {X : Type} (o : op X) : result X :=
  match o in op X return result X with
  | SemAcquire => Ok tt
  | SemRelease => Ok tt
  | OpenConnection ip port timeout => open_connection net ip port timeout
  | StreamRead reader n timeout =>
      match stream_data net reader timeout with
      | Ok data => Ok (take n data)
      | Raise e => Raise e
      end
  | WriterClose _ => Ok tt
  | WaitClosed writer => wait_closed net writer
  end.

Inductive event : Type :=
| EvAcquire
| EvRelease
| EvConnect (ip : string) (port : Z) (timeout : Q)
| EvRead (reader : StreamReader) (n : nat) (timeout : Q)
| EvClose (writer : StreamWriter)
| EvWaitClosed (writer : StreamWriter).

Definition event_of {X : Type} (o : op X) : event :=
  match o with
  | SemAcquire => EvAcquire
  | SemRelease => EvRelease
  | OpenConnection ip port timeout => EvConnect ip port timeout
  | StreamRead reader n timeout => EvRead reader n timeout
  | WriterClose writer => EvClose writer
  | WaitClosed writer => EvWaitClosed writer
  end.

(** A coroutine run alone to its end: its outcome and what it did. *)
Fixpoint run_coro {A : Type} (net : Net) (t : coro A) : result A * list event :=
  match t with
  | Return a => (Ok a, [])
  | Throw e => (Raise e, [])
  | Await o k =>
      let '(r, evs) := run_coro net (k (answer net o)) in (r, event_of o :: evs)
  end.

Definition eval {A : Type} (net : Net) (t : coro A) : result A :=
  fst (run_coro net t).

(** Number of awaits the coroutine still has to go through. *)
Fixpoint ops_left {A : Type} (net : Net) (t : coro A) : nat :=
  match t with
  | Await o k => S (ops_left net (k (answer net o)))
  | _ => O
  end.

Definition awaits_left {A : Type} (net : Net) (ts : list (coro A)) : nat :=
  sum_list (map (ops_left net) ts).

(** ** utils.py: [resolve_target]

    An IPv4 literal is returned as it is; otherwise the first address of the
    lookup, whose error is passed on; an empty answer is a [gaierror]. *)

Definition resolve_target (net : Net) (target : string) : result string :=
  if inet_aton net target then Ok target
  else
    match getaddrinfo net target with
    | Ok resolved =>
        match resolved with
        | [] => Raise gaierror
        | address :: _ => Ok address
        end
    | Raise e => Raise e
    end.

(** ** scanner.py: the probes *)

Record PortResult : Type := {
  port : Z;
  status : string;
  banner : option string;
  service : option string
}.


(** [bytes] in a condition: the empty byte string is false. *)
Definition truthy_bytes (data : list byte) : bool :=
  match data with [] => false | _ :: _ => true end.

(** [data.decode(errors="ignore")] on bytes below 0x80: each is its
    character.  A byte from 0x80 on is left out, as [errors="ignore"] does
    with a byte that belongs to no well-formed sequence; the well-formed
    multi-byte sequences, which the source decodes to one character each,
    are not followed, and what is proved of the decoded text is stated for
    [ascii_bytes]. *)
Definition decode_ignore (data : list byte) : string :=
  string_of_list_ascii
    (map ascii_of_byte (filter (fun b => (Byte.to_N b < 128)%N) data)).

(** [try_connect]: the streams of the connection, or [None] when the
    attempt times out, is refused or fails with an [OSError]. *)
Definition try_connect (ip : string) (port : Z) (timeout : Q)
  : coro (option (StreamReader * StreamWriter)) :=
  try_except
    (let* conn := await (OpenConnection ip port timeout) in
     Return (Some conn))
    [TimeoutError; ConnectionRefusedError; OSError]
    (Return None).

(** [grab_banner]: one bounded read of up to 256 bytes; the [finally]
    block closes the writer and ignores what the closing raises. *)
Definition grab_banner (reader : StreamReader) (writer : StreamWriter)
    (timeout : Q) : coro (option string) :=
  try_finally
    (try_except
       (let* data := await (StreamRead reader 256 timeout) in
        if truthy_bytes data then Return (Some (strip (decode_ignore data)))
        else Return None)
       [TimeoutError; IncompleteReadError]
       (Return None))
    (try_except
       (let* _ := await (WriterClose writer) in await (WaitClosed writer))
       [Exception]
       (Return tt)).

(** [scan_port]: the record starts as closed and is completed when the
    connection is made.  The semaphore is the one of the running scan. *)
Definition scan_port (ip : string) (port : Z) (timeout : Q) : coro PortResult :=
  async_with_semaphore
    (let result :=
       {| port := port; status := "closed"; banner := None; service := None |} in
     let* conn := try_connect ip port timeout in
     match conn with
     | Some (reader, writer) =>
         let* banner := grab_banner reader writer (8 # 10) in
         Return {| port := port; status := "open"; banner := banner;
                   service := infer_service port banner |}
     | None => Return result
     end).

(** ** The event loop

    The tasks of a scan, the value of their semaphore, the operations done
    so far and the first exception a task has ended with. *)

Record pool (A : Type) : Type := {
  sem_value : nat;
  trace : list event;
  failed : option exn;
  tasks : list (coro A)
}.
Arguments sem_value {A} _.
Arguments trace {A} _.
Arguments failed {A} _.
Arguments tasks {A} _.

(** A task waiting for the semaphore resumes only when its value is
    positive; every other operation ends by itself. *)
Definition enabled (sem : nat) {X : Type} (o : op X) : bool :=
  match o with
  | SemAcquire => negb (sem =? 0)%nat
  | _ => true
  end.

Definition sem_after (sem : nat) {X : Type} (o : op X) : nat :=
  match o with
  | SemAcquire => Nat.pred sem
  | SemRelease => S sem
  | _ => sem
  end.

Definition note_failure {A : Type} (f : option exn) (t : coro A) : option exn :=
  match f, t with
  | None, Throw e => Some e
  | _, _ => f
  end.

(** Task [i] is resumed: its pending operation ends and the task runs to
    its next await, or to its end. *)
Definition step_task {A : Type} (net : Net) (i : nat) (p : pool A)
  : option (pool A) :=
  match tasks p !! i with
  | Some (Await o k) =>
      if enabled (sem_value p) o then
        let t' := k (answer net o) in
        Some {| sem_value := sem_after (sem_value p) o;
                trace := trace p ++ [event_of o];
                failed := note_failure (failed p) t';
                tasks := <[i := t']> (tasks p) |}
      else None
  | _ => None
  end.

Inductive pool_step {A : Type} (net : Net) : pool A -> pool A -> Prop :=
| pool_step_task (i : nat) (p p' : pool A) :
    step_task net i p = Some p' -> pool_step net p p'.

Definition task_value {A : Type} (t : coro A) : option A :=
  match t with
  | Return a => Some a
  | _ => None
  end.

(** [asyncio.gather] over the tasks: the first exception of a task is
    passed on at once; otherwise the values of the tasks, in the order of
    the tasks, when all have returned; [None] while it is pending. *)
Definition gather {A : Type} (p : pool A) : option (result (list A)) :=
  match failed p with
  | Some e => Some (Raise e)
  | None =>
      match mapM task_value (tasks p) with
      | Some values => Some (Ok values)
      | None => None
      end
  end.

(** The first task of [order] that can be resumed, resumed. *)
Fixpoint next_step {A : Type} (net : Net) (order : list nat) (p : pool A)
  : option (pool A * list nat) :=
  match order with
  | [] => None
  | i :: rest =>
      match step_task net i p with
      | Some p' => Some (p', rest)
      | None => next_step net rest p
      end
  end.

(** The loop runs until [gather] is settled.  [sched] is the order in which
    the network lets the tasks resume; entries that name a task that cannot
    resume are passed over, and when [sched] is used up the lowest task
    that can resume does. *)
Fixpoint run_pool {A : Type} (net : Net) (fuel : nat) (sched : list nat)
    (p : pool A) : pool A :=
  match fuel with
  | O => p
  | S fuel' =>
      match gather p with
      | Some _ => p
      | None =>
          match next_step net sched p with
          | Some (p', sched') => run_pool net fuel' sched' p'
          | None =>
              match next_step net (seq 0 (length (tasks p))) p with
              | Some (p', _) => run_pool net fuel' [] p'
              | None => p
              end
          end
      end
  end.

(** ** scanner.py: [run_scan] *)

Inductive outcome (A : Type) : Type :=
| Returns (a : A)
| Raises (e : exn)
| Hangs.
Arguments Returns {A} a.
Arguments Raises {A} e.
Arguments Hangs {A}.

Definition start_pool {A : Type} (value : nat) (ts : list (coro A)) : pool A :=
  {| sem_value := value; trace := []; failed := None; tasks := ts |}.

(** The pool of a scan when [gather] is settled or no task can resume.
    [asyncio.Semaphore] refuses a negative value with [ValueError].  The
    loop is given as many steps as the tasks have awaits. *)
Definition scan_pool (net : Net) (sched : list nat) (target : string)
    (ports : list Z) (timeout : Q) (concurrency : Z)
  : result (pool PortResult) :=
  match resolve_target net target with
  | Ok ip =>
      if concurrency <? 0 then Raise ValueError
      else
        let ts := map (fun p => scan_port ip p timeout) ports in
        Ok (run_pool net (awaits_left net ts) sched
              (start_pool (Z.to_nat concurrency) ts))
  | Raise e => Raise e
  end.

(** [run_scan]: the values [gather] gives, sorted by port.  [Hangs] is the
    scan none of whose tasks can ever resume. *)
Definition run_scan (net : Net) (sched : list nat) (target : string)
    (ports : list Z) (timeout : Q) (concurrency : Z)
  : outcome (list PortResult) :=
  match scan_pool net sched target ports timeout concurrency with
  | Ok p =>
      match gather p with
      | Some (Ok results) => Returns (sorted port results)
      | Some (Raise e) => Raises e
      | None => Hangs
      end
  | Raise e => Raises e
  end.

(** What [run_scan] has done on the network when it ends. *)
Definition scan_trace (net : Net) (sched : list nat) (target : string)
    (ports : list Z) (timeout : Q) (concurrency : Z) : list event :=
  match scan_pool net sched target ports timeout concurrency with
  | Ok p => trace p
  | Raise _ => []
  end.

(** ** Bookkeeping of the semaphore

    Where a task stands with respect to [async with semaphore], read off the
    operation it waits for and the way it goes on. *)

Inductive op_kind : Type := KAcquire | KRelease | KIO.

Definition kind_of {X : Type} (o : op X) : op_kind :=
  match o with
  | SemAcquire => KAcquire
  | SemRelease => KRelease
  | _ => KIO
  end.

Definition is_done {A : Type} (t : coro A) : bool :=
  match t with
  | Await _ _ => false
  | _ => true
  end.

(** The task holds a slot: it is past the acquire, does input and output,
    and ends right after the release. *)
Fixpoint inside {A : Type} (net : Net) (t : coro A) : bool :=
  match t with
  | Await o k =>
      match kind_of o with
      | KAcquire => false
      | KRelease => is_done (k (answer net o))
      | KIO => inside net (k (answer net o))
      end
  | _ => false
  end.

(** The task waits for a slot and will hold it from then on. *)
Definition waits {A : Type} (net : Net) (t : coro A) : bool :=
  match t with
  | Await o k =>
      match kind_of o with
      | KAcquire => inside net (k (answer net o))
      | _ => false
      end
  | _ => false
  end.

Definition well_bracketed {A : Type} (net : Net) (t : coro A) : bool :=
  waits net t || inside net t || is_done t.

(** The task is connecting or reading. *)
Definition probing {A : Type} (t : coro A) : bool :=
  match t with
  | Await o _ =>
      match o with
      | OpenConnection _ _ _ | StreamRead _ _ _ => true
      | _ => false
      end
  | _ => false
  end.

Definition count_tasks {A : Type} (f : coro A -> bool) (ts : list (coro A)) : nat :=
  length (filter (fun t => f t = true) ts).

Definition in_flight {A : Type} (p : pool A) : nat := count_tasks probing (tasks p).

Definition holders {A : Type} (net : Net) (p : pool A) : nat :=
  count_tasks (inside net) (tasks p).

(** ** A test network

    10.0.0.1 listens on 22 (an SSH greeting), 80 (silent), 7 (end of stream
    at once), 23 (sends a line break and no more) and 99 (resets the
    connection once it is accepted); 81 refuses, 82 does not answer, every
    other port is unreachable.  Only lab.example resolves. *)

Definition lab : Net := {|
  inet_aton := fun t => String.eqb t "10.0.0.1";
  getaddrinfo := fun t =>
    if String.eqb t "lab.example" then Ok ["10.0.0.1"] else Raise gaierror;
  open_connection := fun ip p _ =>
    if negb (String.eqb ip "10.0.0.1") then Raise OSError
    else if (p =? 22) || (p =? 80) || (p =? 7) || (p =? 23) || (p =? 99)
      then Ok (Z.to_nat p, Z.to_nat p)
    else if p =? 81 then Raise ConnectionRefusedError
    else if p =? 82 then Raise TimeoutError
    else Raise OSError;
  stream_data := fun r _ =>
    if (r =? 22)%nat then Ok (list_byte_of_string "SSH-2.0-OpenSSH_8.0" ++ [x0d; x0a])
    else if (r =? 80)%nat then Raise TimeoutError
    else if (r =? 7)%nat then Ok []
    else if (r =? 23)%nat then Ok [x0d; x0a]
    else Raise ConnectionResetError;
  wait_closed := fun w =>
    if (w =? 99)%nat then Raise ConnectionResetError else Ok tt
|}.

(** A host on which nothing listens: every connection is refused. *)
Definition quiet : Net := {|
  inet_aton := fun _ => true;
  getaddrinfo := fun _ => Raise gaierror;
  open_connection := fun _ _ _ => Raise ConnectionRefusedError;
  stream_data := fun _ _ => Raise ConnectionResetError;
  wait_closed := fun _ => Ok tt
|}.

(** Order of two records by a key, the order [sorted] establishes. *)
Definition key_le {A : Type} (key : A -> Z) (x y : A) : Prop := key x <= key y.

(** The keyword rules of the banner heuristics as an ordered table: the
    label of the first rule one of whose keywords occurs in the text. *)
Definition banner_rules : list (list string * string) :=
  [(["ssh"], "ssh");
   (["http"; "apache"; "nginx"], "http");
   (["smtp"], "smtp");
   (["mysql"; "mariadb"], "mysql");
   (["rdp"; "mstsc"], "rdp")].

Fixpoint first_rule (rules : list (list string * string)) (text : string)
  : option string :=
  match rules with
  | [] => None
  | (keywords, label) :: rules' =>
      if existsb (fun k => str_in k text) keywords then Some label
      else first_rule rules' text
  end.

(** ** Vocabulary of the properties *)

Definition closed_result (q : Z) : PortResult :=
  {| port := q; status := "closed"; banner := None; service := None |}.

Definition open_result (q : Z) (text : option string) : PortResult :=
  {| port := q; status := "open"; banner := text;
     service := infer_service q text |}.


Definition is_close_event (ev : event) : bool :=
  match ev with EvClose _ => true | _ => false end.

Definition is_throw {A : Type} (t : coro A) : bool :=
  match t with Throw _ => true | _ => false end.

(** What holds of the pool of a scan at every moment: every task stands in
    one of the three positions with respect to the semaphore, the free
    slots and the held slots add up to the limit, and [failed] tells
    whether a task has raised. *)
Record pool_inv {A : Type} (net : Net) (N : nat) (p : pool A) : Prop := {
  inv_shape : Forall (fun t => well_bracketed net t = true) (tasks p);
  inv_slots : (sem_value p + holders net p = N)%nat;
  inv_no_throw : failed p = None -> Forall (fun t => is_throw t = false) (tasks p);
  inv_failed : forall e, failed p = Some e -> Raise e ∈ eval net <$> tasks p
}.

(** The record the probe of port [q] ends with, when it ends with one. *)
Definition probe_result (net : Net) (ip : string) (timeout : Q) (q : Z)
  : PortResult :=
  match eval net (scan_port ip q timeout) with
  | Ok r => r
  | Raise _ => closed_result q
  end.

(** The probe of a port ends by itself: the connection attempt succeeds or
    fails in one of the ways [try_connect] takes care of, and the read of
    the banner gives bytes or fails in one of the ways [grab_banner] takes
    care of. *)
Definition probe_settles (net : Net) (ip : string) (timeout : Q) (q : Z) : Prop :=
  match open_connection net ip q timeout with
  | Ok (reader, _) =>
      match stream_data net reader (8 # 10) with
      | Ok _ => True
      | Raise e => catches [TimeoutError; IncompleteReadError] e = true
      end
  | Raise e => catches [TimeoutError; ConnectionRefusedError; OSError] e = true
  end.

(** ** [str(n)] and [sep.join(parts)] *)

Definition digit_char (d : Z) : ascii := ascii_of_N (Z.to_N (48 + d)).

(** The decimal digits of [n >= 0], most significant first, in front of
    [acc].  [fuel] bounds the number of digits. *)
Fixpoint decimal_digits (fuel : nat) (n : Z) (acc : string) : string :=
  match fuel with
  | O => acc
  | S fuel' =>
      let acc' := String (digit_char (n mod 10)) acc in
      if n <? 10 then acc' else decimal_digits fuel' (n / 10) acc'
  end.

(** [str(n)] for an integer of at most 4300 decimal digits (beyond, [str]
    raises [ValueError]): its decimal digits, after a minus sign when it is
    negative.  A number has no more decimal digits than binary ones. *)
Definition py_str (n : Z) : string :=
  if n <? 0
  then String "-" (decimal_digits (S (Z.to_nat (Z.log2 (- n)))) (- n) EmptyString)
  else decimal_digits (S (Z.to_nat (Z.log2 n))) n EmptyString.

(** [sep.join(parts)] *)
Definition join (sep : string) (parts : list string) : string :=
  String.concat sep parts.

(** [s.replace(old, new)] for one-character [old] and [new]. *)
Fixpoint replace (old new : ascii) (s : string) : string :=
  match s with
  | String c s' => String (if Ascii.eqb c old then new else c) (replace old new s')
  | EmptyString => EmptyString
  end.

(** [x or ""] for an optional text. *)
Definition or_empty (x : option string) : string :=
  match x with
  | Some text => if truthy_str text then text else EmptyString
  | None => EmptyString
  end.

(** ** gui.py: [parse_ports_input] *)

(** One turn of the loop of [parse_ports_input]; the parts are trimmed
    before the loop. *)
Definition input_part (ports : gset Z) (part : string) : gset Z :=
  if str_in "-" part then
    match range_bounds part with
    | Some (start_i, end_i) =>
        ports ∪ list_to_set (py_range start_i (end_i + 1))
    | None => ports
    end
  else
    match py_int part with
    | Some p => ports ∪ {[ p ]}
    | None => ports
    end.

Definition parse_ports_input (s : string) : list Z :=
  if negb (truthy_str s) || String.eqb (strip s) EmptyString then TOP_TCP_PORTS
  else
    let parts :=
      strip <$> filter (fun p => truthy_str (strip p) = true) (split "," s) in
    let ports := foldl input_part ∅ parts in
    sorted id (filter (fun p => 1 <= p <= 65535) (elements ports)).

(** ** __init__.py: [run_scan_sync] *)

Definition run_scan_sync (net : Net) (sched : list nat) (target : string)
    (ports : option (list Z)) (timeout : Q) (concurrency : Z)
  : outcome (list PortResult) :=
  let ports :=
    match ports with
    | None => TOP_TCP_PORTS
    | Some ports => ports
    end in
  run_scan net sched target ports timeout concurrency.

(** ** scanner.py: [main], the listing of the open ports *)

Definition open_ports (results : list PortResult) : list PortResult :=
  filter (fun r => status r = "open") results.

(** ** utils.py: [save_csv], the rows given to the writer *)

Definition fieldnames : list string := ["port"; "status"; "service"; "banner"].

Record CsvRow : Type := {
  row_port : Z;
  row_status : string;
  row_service : string;
  row_banner : string
}.

Definition csv_row (r : PortResult) : CsvRow :=
  {| row_port := port r;
     row_status := status r;
     row_service := or_empty (service r);
     row_banner := replace "013" " " (replace "010" " " (or_empty (banner r))) |}.

Definition csv_rows (results : list PortResult) : list CsvRow :=
  map csv_row results.

(** ** Vocabulary of the further properties *)

(** Every character of the text satisfies [f]. *)
Fixpoint all_chars (f : ascii -> bool) (s : string) : bool :=
  match s with
  | String c s' => f c && all_chars f s'
  | EmptyString => true
  end.

(** The characters of the decimal text of an integer. *)
Definition is_decimal_char (c : ascii) : bool := is_digit c || Ascii.eqb c "-".

(** Neither a line feed nor a carriage return. *)
Definition no_line_break (c : ascii) : bool :=
  negb (Ascii.eqb c "010") && negb (Ascii.eqb c "013").

(** The shape of the record of a probe of port [q]. *)
Definition result_shape (q : Z) (r : PortResult) : Prop :=
  port r = q /\
  ((status r = "closed" /\ banner r = None /\ service r = None) \/
   (status r = "open" /\ service r = infer_service q (banner r) /\
    match banner r with
    | Some text => (String.length text <= 256)%nat
    | None => True
    end)).

(** What the tasks have still to do, each run alone. *)
Definition pending_events {A : Type} (net : Net) (ts : list (coro A)) : list event :=
  concat ((fun t => snd (run_coro net t)) <$> ts).

Definition is_connect_event (ev : event) : bool :=
  match ev with EvConnect _ _ _ => true | _ => false end.

Definition is_acquire_event (ev : event) : bool :=
  match ev with EvAcquire => true | _ => false end.

Definition is_release_event (ev : event) : bool :=
  match ev with EvRelease => true | _ => false end.

(** The writer of the connection to port [q], when the attempt succeeds. *)
Definition opened_writer (net : Net) (ip : string) (timeout : Q) (q : Z)
  : option StreamWriter :=
  match open_connection net ip q timeout with
  | Ok (_, writer) => Some writer
  | Raise _ => None
  end.

(** * Properties *)

(** ** The text primitives on examples *)

Example py_int_examples :
  py_int "443" = Some 443 /\
  py_int " 12 " = Some 12 /\
  py_int "+5" = Some 5 /\
  py_int "-5" = Some (-5) /\
  py_int "1_000" = Some 1000 /\
  py_int "007" = Some 7 /\
  py_int EmptyString = None /\
  py_int "abc" = None /\
  py_int "1 2" = None /\
  py_int "- 5" = None /\
  py_int "_1" = None /\
  py_int "1__0" = None /\
  py_int "1_" = None /\
  py_int "0x10" = None.
Proof. by vm_compute. Qed.

Example text_examples :
  split "," "22, 80,,443" = ["22"; " 80"; EmptyString; "443"] /\
  split "," EmptyString = [EmptyString] /\
  split_once "-" "5--3" = ["5"; "-3"] /\
  split_once "-" "443" = ["443"] /\
  strip "  1 - 3 " = "1 - 3" /\
  lower "SSH-2.0-OpenSSH_8.0" = "ssh-2.0-openssh_8.0" /\
  str_in "ssh" "ssh-2.0-openssh_8.0" = true /\
  str_in "-" "443" = false.
Proof. by vm_compute. Qed.

(** White space and letter case beyond ASCII: U+0085 and U+00A0 are
    trimmed by [strip] and passed over by [int]; the separators FS to US are
    trimmed by [strip] but refused by [int]; the capitals from U+00C0 on
    have lower-case letters, the multiplication sign U+00D7 has none. *)
Example latin1_examples :
  strip (String "160" "22") = "22" /\
  strip (String "133" (String "028" "22")) = "22" /\
  py_int (String "160" "22") = Some 22 /\
  py_int (String "133" "22") = Some 22 /\
  py_int (String "028" "22") = None /\
  py_int (String "2" (String "160" "2")) = None /\
  lower (String "201" "T") = String "233" "t" /\
  lower (String "215" EmptyString) = String "215" EmptyString /\
  parse_ports (Some ("22," ++ String "160" "80")%string) = [22; 80].
Proof. by vm_compute. Qed.

(** ** [sorted] *)

Section sorted_facts.
Context {A : Type} (key : A -> Z).

Lemma insert_by_Permutation x l : insert_by key x l ≡ₚ x :: l.
Proof.
  induction l as [|y l IH]; simpl; [done|].
  destruct (key x <=? key y); [done|].
  rewrite IH. apply Permutation_swap.
Qed.

Lemma sorted_Permutation l : sorted key l ≡ₚ l.
Proof.
  induction l as [|x l IH]; simpl; [done|].
  by rewrite insert_by_Permutation, IH.
Qed.

Lemma sorted_length l : length (sorted key l) = length l.
Proof. by rewrite sorted_Permutation. Qed.

Lemma insert_by_Sorted x l :
  Sorted (key_le key) l -> Sorted (key_le key) (insert_by key x l).
Proof.
  induction 1 as [|y l Hl IH Hy]; simpl.
  - repeat constructor.
  - destruct (Z.leb_spec (key x) (key y)) as [Hxy|Hxy].
    + by repeat constructor.
    + constructor; [done|].
      destruct Hy as [|z l Hyz]; simpl in *.
      * constructor. unfold key_le. lia.
      * destruct (key x <=? key z); constructor; unfold key_le in *; lia.
Qed.

Lemma sorted_Sorted l : Sorted (key_le key) (sorted key l).
Proof.
  induction l as [|x l IH]; simpl; [constructor|].
  by apply insert_by_Sorted.
Qed.

Global Instance key_le_trans : Transitive (key_le key).
Proof. unfold key_le. intros x y z ??. lia. Qed.

Lemma sorted_StronglySorted l : StronglySorted (key_le key) (sorted key l).
Proof. apply Sorted_StronglySorted; [apply _|apply sorted_Sorted]. Qed.

Lemma sorted_fmap_key l : key <$> sorted key l = sorted id (key <$> l).
Proof.
  induction l as [|x l IH]; [done|].
  change (key <$> insert_by key x (sorted key l)
          = insert_by id (key x) (sorted id (key <$> l))).
  rewrite <-IH. generalize (sorted key l). clear.
  intros l0. induction l0 as [|y l0 IH]; simpl; [done|].
  destruct (key x <=? key y); simpl; [done|].
  f_equal. apply IH.
Qed.
Lemma sorted_fmap_section (f : Z -> A) l :
  (forall x, key (f x) = x) -> sorted key (f <$> l) = f <$> sorted id l.
Proof.
  intros Hf. induction l as [|x l IH]; [done|].
  change (insert_by key (f x) (sorted key (f <$> l))
          = f <$> insert_by id x (sorted id l)).
  rewrite IH. generalize (sorted id l). clear IH.
  intros l0. induction l0 as [|y l0 IH]; [done|].
  rewrite fmap_cons. cbn [insert_by]. rewrite !Hf. unfold id at 1 2.
  destruct (x <=? y); [done|]. rewrite fmap_cons. f_equal. apply IH.
Qed.
End sorted_facts.

Lemma StronglySorted_le_lt (l : list Z) :
  NoDup l -> StronglySorted Z.le l -> StronglySorted Z.lt l.
Proof.
  induction 2 as [|x l Hl IH Hx]; [constructor|].
  apply NoDup_cons in H as [Hnin Hnd].
  constructor; [auto|].
  apply Forall_forall. intros y Hy.
  rewrite Forall_forall in Hx. specialize (Hx y Hy).
  assert (x <> y) by (intros ->; done). lia.
Qed.

Lemma StronglySorted_lt_le (l : list Z) :
  StronglySorted Z.lt l -> StronglySorted Z.le l.
Proof.
  induction 1 as [|x l Hl IH Hx]; constructor; [done|].
  eapply Forall_impl; [done|]. intros; simpl in *; lia.
Qed.

Lemma sorted_id_lt (l : list Z) : NoDup l -> StronglySorted Z.lt (sorted id l).
Proof.
  intros Hnd. apply StronglySorted_le_lt.
  - by rewrite sorted_Permutation.
  - apply (sorted_StronglySorted id).
Qed.

(** [sorted] depends on the elements only, not on their order. *)
Lemma sorted_id_Permutation (l l' : list Z) :
  l ≡ₚ l' -> sorted id l = sorted id l'.
Proof.
  intros Hp. apply (StronglySorted_unique Z.le).
  - apply (sorted_StronglySorted id).
  - apply (sorted_StronglySorted id).
  - by rewrite !sorted_Permutation.
Qed.

(** A list that is already in strict ascending order is what [sorted]
    makes of any of its rearrangements. *)
Lemma sorted_id_unique (l l' : list Z) :
  StronglySorted Z.lt l -> l' ≡ₚ l -> sorted id l' = l.
Proof.
  intros Hl Hp.
  apply (StronglySorted_unique Z.le).
  - apply (sorted_StronglySorted id).
  - by apply StronglySorted_lt_le.
  - by rewrite sorted_Permutation.
Qed.

(** ** [parse_ports] *)

Lemma StronglySorted_seqZ (m n : Z) : StronglySorted Z.lt (seqZ m n).
Proof.
  destruct (decide (n <= 0)) as [Hn|Hn]; [rewrite seqZ_nil by done; constructor|].
  rewrite <-(Z2Nat.id n) by lia. generalize (Z.to_nat n) as k. clear.
  intros k. revert m. induction k as [|k IH]; intros m.
  - rewrite seqZ_nil by done. constructor.
  - rewrite seqZ_cons by lia. constructor.
    + replace (Z.pred (Z.of_nat (S k))) with (Z.of_nat k) by lia. apply IH.
    + apply Forall_seqZ. intros; lia.
Qed.

Lemma StronglySorted_filter {A : Type} (R : relation A) (P : A -> Prop)
    `{forall x, Decision (P x)} (l : list A) :
  StronglySorted R l -> StronglySorted R (filter P l).
Proof.
  induction 1 as [|x l Hl IH Hx]; [constructor|].
  rewrite filter_cons. case_decide; [|done].
  constructor; [done|].
  apply Forall_forall. intros y Hy. apply list_elem_of_filter in Hy as [_ Hy].
  rewrite Forall_forall in Hx. auto.
Qed.

Lemma TOP_TCP_PORTS_ascending : StronglySorted Z.lt TOP_TCP_PORTS.
Proof. unfold TOP_TCP_PORTS. repeat (constructor; [|repeat constructor; lia]). constructor. Qed.

Lemma TOP_TCP_PORTS_valid : Forall (fun p => 1 <= p <= 65535) TOP_TCP_PORTS.
Proof. unfold TOP_TCP_PORTS. repeat constructor; lia. Qed.

Lemma StronglySorted_lt_NoDup (l : list Z) : StronglySorted Z.lt l -> NoDup l.
Proof.
  induction 1 as [|x l Hl IH Hx]; constructor; [|done].
  intros Hin. rewrite Forall_forall in Hx. specialize (Hx x Hin). lia.
Qed.

(** A turn of the loop only adds to the set, and what it adds depends on
    the part alone. *)
Lemma parse_part_union (ports : gset Z) (part : string) :
  parse_part ports part = ports ∪ parse_part ∅ part.
Proof.
  unfold parse_part.
  destruct (str_in "-" (strip part)).
  - destruct (range_bounds (strip part)) as [[a b]|]; set_solver.
  - destruct (py_int (strip part)); set_solver.
Qed.

Lemma elem_of_foldl_parse_part (parts : list string) (ports : gset Z) (p : Z) :
  p ∈ foldl parse_part ports parts <->
  p ∈ ports \/ exists part, part ∈ parts /\ p ∈ parse_part ∅ part.
Proof.
  revert ports. induction parts as [|part parts IH]; intros ports; simpl.
  - split; [auto|]. intros [?|(? & Hin & _)]; [done|]. by apply elem_of_nil in Hin.
  - rewrite IH, parse_part_union, elem_of_union. split.
    + intros [[?|?]|(q & ? & ?)]; [auto|right..].
      * exists part. split; [left|done].
      * exists q. split; [by right|done].
    + intros [?|(q & Hq & ?)]; [auto|].
      apply elem_of_cons in Hq as [->|?]; [auto|]. right. eauto.
Qed.

Lemma split_once_two (sep : ascii) (s a b : string) :
  split_once sep s = [a; b] -> str_in (String sep EmptyString) s = true.
Proof.
  revert a. induction s as [|c s IH]; intros a; simpl; [done|].
  destruct (Ascii.eqb_spec c sep) as [->|Hne].
  - intros _. rewrite Ascii.eqb_refl. by destruct s.
  - destruct (split_once sep s) as [|piece [|piece' rest]] eqn:Hs; try done.
    intros [= <- <-]. rewrite (IH piece) by (f_equal; congruence).
    apply orb_true_r.
Qed.

Lemma parse_ports_nonempty (c : ascii) (s : string) :
  parse_ports (Some (String c s)) =
  sorted id (filter (fun p => 1 <= p <= 65535)
               (elements (foldl parse_part ∅ (split "," (String c s))))).
Proof. done. Qed.

Lemma elem_of_parse_ports (c : ascii) (s : string) (p : Z) :
  p ∈ parse_ports (Some (String c s)) <->
  1 <= p <= 65535 /\
  exists part, part ∈ split "," (String c s) /\ p ∈ parse_part ∅ part.
Proof.
  rewrite parse_ports_nonempty, sorted_Permutation, list_elem_of_filter,
    elem_of_elements, elem_of_foldl_parse_part.
  set_solver.
Qed.

(** C3: whatever the specification, [parse_ports] gives a strictly
    ascending, duplicate-free list of integers of [1, 65535].  A port is in
    the result exactly when it is in range and some comma-separated part
    contributes it, so that a part that is malformed or out of range is left
    out and the other parts are kept, as for "0", "70000" and "abc". *)
Theorem parse_ports_ascending_valid :
  (forall ports_arg : option string,
     StronglySorted Z.lt (parse_ports ports_arg) /\
     NoDup (parse_ports ports_arg) /\
     Forall (fun p => 1 <= p <= 65535) (parse_ports ports_arg)) /\
  (forall (c : ascii) (s : string) (p : Z),
     p ∈ parse_ports (Some (String c s)) <->
     1 <= p <= 65535 /\
     exists part, part ∈ split "," (String c s) /\ p ∈ parse_part ∅ part) /\
  parse_part ∅ "abc" = ∅ /\
  parse_ports (Some "0") = [] /\
  parse_ports (Some "70000") = [] /\
  parse_ports (Some "abc") = [] /\
  parse_ports (Some "0,22,abc,70000,80,4x-7,9-") = [22; 80].
Proof.
  split; [|split; [apply elem_of_parse_ports|by vm_compute]].
  intros ports_arg.
  assert (StronglySorted Z.lt (parse_ports ports_arg) /\
          Forall (fun p => 1 <= p <= 65535) (parse_ports ports_arg)) as [Hs Hv].
  { destruct ports_arg as [[|c s]|];
      [split; [apply TOP_TCP_PORTS_ascending|apply TOP_TCP_PORTS_valid]| |
       split; [apply TOP_TCP_PORTS_ascending|apply TOP_TCP_PORTS_valid]].
    rewrite parse_ports_nonempty. split.
    - apply sorted_id_lt, NoDup_filter, NoDup_elements.
    - rewrite sorted_Permutation. apply Forall_forall. intros p Hp.
      by apply list_elem_of_filter in Hp as [? _]. }
  auto using StronglySorted_lt_NoDup.
Qed.

(** C4: the examples of the specification. *)
Theorem parse_ports_examples :
  parse_ports (Some "22,80,443") = [22; 80; 443] /\
  parse_ports (Some "1-3") = [1; 2; 3] /\
  parse_ports (Some "22-20") = [] /\
  parse_ports (Some EmptyString) = TOP_TCP_PORTS /\
  parse_ports None = TOP_TCP_PORTS.
Proof. by vm_compute. Qed.

(** What a well-formed range part adds to the set. *)
Lemma parse_part_range (part start end_ : string) (a b : Z) :
  split_once "-" (strip part) = [start; end_] ->
  py_int start = Some a -> py_int end_ = Some b ->
  parse_part ∅ part = list_to_set (py_range a (b + 1)).
Proof.
  intros Hsplit Ha Hb. unfold parse_part, range_bounds.
  rewrite (split_once_two _ _ _ _ Hsplit), Hsplit, Ha, Hb.
  apply leibniz_equiv, (left_id ∅ (∪)).
Qed.

Lemma split_nonempty (sep : ascii) (s part : string) :
  part ∈ split sep s -> part <> EmptyString -> s <> EmptyString.
Proof.
  intros Hin Hne ->. simpl in Hin.
  apply list_elem_of_singleton in Hin. done.
Qed.

(** C10: a range part with integer bounds [a <= b] contributes every value
    of [a, b] that lies in [1, 65535], whatever the bounds: the clamping is
    per value.  When the part is the whole specification the result is
    exactly these values, in ascending order. *)
Theorem range_token_clamped_per_value :
  (forall (spec part start end_ : string) (a b : Z),
     part ∈ split "," spec ->
     split_once "-" (strip part) = [start; end_] ->
     py_int start = Some a ->
     py_int end_ = Some b ->
     a <= b ->
     (forall p, a <= p <= b -> 1 <= p <= 65535 -> p ∈ parse_ports (Some spec)) /\
     (split "," spec = [part] ->
      parse_ports (Some spec) =
      filter (fun p => 1 <= p <= 65535) (py_range a (b + 1)))) /\
  parse_ports (Some "65530-65600")
    = [65530; 65531; 65532; 65533; 65534; 65535] /\
  parse_ports (Some "0-3") = [1; 2; 3].
Proof.
  split; [|by vm_compute].
  intros spec part start end_ a b Hin Hsplit Ha Hb Hab.
  pose proof (parse_part_range _ _ _ _ _ Hsplit Ha Hb) as Hpart.
  assert (spec <> EmptyString) as Hspec.
  { apply (split_nonempty "," _ part Hin). intros ->. done. }
  destruct spec as [|c s]; [done|]. split.
  - intros p Hp Hvalid. apply elem_of_parse_ports. split; [done|].
    exists part. split; [done|].
    rewrite Hpart, elem_of_list_to_set. apply elem_of_seqZ. lia.
  - intros Hone. rewrite parse_ports_nonempty, Hone. simpl.
    rewrite parse_part_union, Hpart.
    apply sorted_id_unique.
    + apply StronglySorted_filter, StronglySorted_seqZ.
    + apply NoDup_Permutation.
      * apply NoDup_filter, NoDup_elements.
      * apply NoDup_filter, NoDup_seqZ.
      * intros p. rewrite !list_elem_of_filter, elem_of_elements.
        rewrite elem_of_union, elem_of_list_to_set.
        split; [intros [? [Hp|?]]|intros [? ?]]; auto.
        by apply elem_of_empty in Hp.
Qed.

Lemma range_token_clamped_per_value_witness :
  parse_ports (Some "0-3") = filter (fun p => 1 <= p <= 65535) (py_range 0 (3 + 1)).
Proof.
  refine (proj2 (proj1 range_token_clamped_per_value "0-3" "0-3" "0" "3" 0 3
                   _ _ _ _ _) _).
  - by left.
  - reflexivity.
  - reflexivity.
  - reflexivity.
  - lia.
  - reflexivity.
Defined.

(** ** [infer_service] *)

(** C5: the port table decides when it knows the port, and the banner is
    not looked at; otherwise a banner is matched, in lower case, against
    the ordered keyword rules and the first rule with a keyword in it gives
    the label; otherwise there is no label. *)
Theorem infer_service_precedence :
  (forall (port : Z) (banner : option string),
     infer_service port banner =
     match SERVICE_MAP !! port with
     | Some label => Some label
     | None =>
         match banner with
         | Some text => first_rule banner_rules (lower text)
         | None => None
         end
     end) /\
  infer_service 22 None = Some "ssh" /\
  infer_service 9999 (Some "SSH-2.0-OpenSSH_8.0") = Some "ssh" /\
  infer_service 9999 None = None /\
  infer_service 443 (Some "anything") = Some "https".
Proof.
  split; [|by vm_compute].
  intros port banner. unfold infer_service.
  destruct (SERVICE_MAP !! port); [done|].
  destruct banner as [[|c text]|]; [done| |done].
  cbn [truthy_str first_rule banner_rules existsb].
  generalize (lower (String c text)) as b. intros b.
  rewrite !orb_false_r.
  destruct (str_in "ssh" b); [done|].
  destruct (str_in "http" b); [done|].
  destruct (str_in "apache" b); [done|].
  destruct (str_in "nginx" b); [done|].
  destruct (str_in "smtp" b); [done|].
  destruct (str_in "mysql" b); [done|].
  destruct (str_in "mariadb" b); [done|].
  destruct (str_in "rdp" b); [done|].
  destruct (str_in "mstsc" b); done.
Qed.

(** ** The probes *)

Lemma eval_Await {A X : Type} (net : Net) (o : op X) (k : result X -> coro A) :
  eval net (Await o k) = eval net (k (answer net o)).
Proof. unfold eval. simpl. by destruct (run_coro net (k (answer net o))). Qed.

(** [grab_banner] run alone: one read, then the close, whatever the read
    gave. *)
Lemma run_grab_banner (net : Net) (reader : StreamReader)
    (writer : StreamWriter) (timeout : Q) :
  run_coro net (grab_banner reader writer timeout) =
  (match stream_data net reader timeout with
   | Ok data =>
       if truthy_bytes (take 256 data)
       then Ok (Some (strip (decode_ignore (take 256 data))))
       else Ok None
   | Raise e =>
       if catches [TimeoutError; IncompleteReadError] e then Ok None
       else Raise e
   end,
   [EvRead reader 256 timeout; EvClose writer; EvWaitClosed writer]).
Proof.
  unfold grab_banner. generalize 256%nat as n. intros n.
  cbn -[catches take]. destruct (stream_data net reader timeout) as [data|e].
  - cbn -[catches take]. destruct (truthy_bytes (take n data));
      cbn -[catches take]; by destruct (wait_closed net writer).
  - cbn -[catches take].
    destruct (catches [TimeoutError; IncompleteReadError] e);
      cbn -[catches take]; by destruct (wait_closed net writer).
Qed.

Lemma run_try_connect (net : Net) (ip : string) (port : Z) (timeout : Q) :
  run_coro net (try_connect ip port timeout) =
  (match open_connection net ip port timeout with
   | Ok conn => Ok (Some conn)
   | Raise e =>
       if catches [TimeoutError; ConnectionRefusedError; OSError] e
       then Ok None else Raise e
   end,
   [EvConnect ip port timeout]).
Proof.
  unfold try_connect. cbn -[catches].
  destruct (open_connection net ip port timeout) as [conn|e]; cbn -[catches];
    [done|].
  by destruct (catches _ e).
Qed.

(** Running a sequence is running its parts in turn. *)
Lemma run_coro_bind {A B : Type} (net : Net) (m : coro A) (f : A -> coro B) :
  run_coro net (let* x := m in f x) =
  match run_coro net m with
  | (Ok a, evs) => let '(r, evs') := run_coro net (f a) in (r, evs ++ evs')
  | (Raise e, evs) => (Raise e, evs)
  end.
Proof.
  induction m as [a|e|X o k IH]; simpl.
  - by destruct (run_coro net (f a)).
  - done.
  - rewrite IH. destruct (run_coro net (k (answer net o))) as [[a|e] evs]; [|done].
    by destruct (run_coro net (f a)).
Qed.

Lemma run_coro_try_finally {A : Type} (net : Net) (body : coro A)
    (final : coro unit) :
  run_coro net (try_finally body final) =
  let '(r, evs) := run_coro net body in
  match run_coro net final with
  | (Ok _, evs') => (r, evs ++ evs')
  | (Raise e, evs') => (Raise e, evs ++ evs')
  end.
Proof.
  induction body as [a|e|X o k IH]; simpl.
  - rewrite run_coro_bind.
    destruct (run_coro net final) as [[[]|e] evs]; simpl;
      by rewrite ?app_nil_r.
  - rewrite run_coro_bind.
    destruct (run_coro net final) as [[[]|e'] evs]; simpl;
      by rewrite ?app_nil_r.
  - rewrite IH. destruct (run_coro net (k (answer net o))) as [r evs].
    by destruct (run_coro net final) as [[[]|e'] evs'].
Qed.

(** [scan_port] run alone. *)
Lemma run_scan_port (net : Net) (ip : string) (q : Z) (timeout : Q) :
  run_coro net (scan_port ip q timeout) =
  match open_connection net ip q timeout with
  | Ok (reader, writer) =>
      (match fst (run_coro net (grab_banner reader writer (8 # 10))) with
       | Ok text => Ok (open_result q text)
       | Raise e => Raise e
       end,
       [EvAcquire; EvConnect ip q timeout; EvRead reader 256 (8 # 10);
        EvClose writer; EvWaitClosed writer; EvRelease])
  | Raise e =>
      (if catches [TimeoutError; ConnectionRefusedError; OSError] e
       then Ok (closed_result q) else Raise e,
       [EvAcquire; EvConnect ip q timeout; EvRelease])
  end.
Proof.
  unfold scan_port, async_with_semaphore.
  cbn -[try_connect grab_banner catches].
  rewrite run_coro_try_finally, run_coro_bind, run_try_connect.
  destruct (open_connection net ip q timeout) as [[reader writer]|e].
  - rewrite run_coro_bind, run_grab_banner. cbn -[catches take].
    destruct (stream_data net reader (8 # 10)) as [data|e].
    + by destruct (truthy_bytes (take 256 data)).
    + by destruct (catches _ e).
  - by destruct (catches _ e).
Qed.

Lemma length_drop_while (p : ascii -> bool) (s : string) :
  (String.length (drop_while p s) <= String.length s)%nat.
Proof.
  induction s as [|c s IH]; simpl; [done|].
  destruct (p c); simpl; lia.
Qed.

Lemma length_drop_while_end (p : ascii -> bool) (s : string) :
  (String.length (drop_while_end p s) <= String.length s)%nat.
Proof.
  induction s as [|c s IH]; simpl; [done|].
  destruct (drop_while_end p s); [destruct (p c)|]; simpl in *; lia.
Qed.

Lemma length_strip (s : string) :
  (String.length (strip s) <= String.length s)%nat.
Proof.
  unfold strip. etrans; [apply length_drop_while_end|apply length_drop_while].
Qed.

Lemma length_decode_ignore (data : list byte) :
  (String.length (decode_ignore data) <= length data)%nat.
Proof.
  unfold decode_ignore.
  etrans; [|apply (length_filter (fun b => (Byte.to_N b < 128)%N))].
  generalize (filter (fun b => (Byte.to_N b < 128)%N) data) as l.
  intros l. induction l as [|b l IH]; simpl; [done|]. lia.
Qed.

(** C2: when the connection attempt times out, is refused or fails with any
    other OS-level error, the task ends with the record of a closed port,
    without service and without banner; the record is the same for the
    three causes.  The task has read nothing and has no connection to
    close. *)
Theorem failed_connect_is_closed (net : Net) (ip : string) (q : Z)
    (timeout : Q) (e : exn) :
  open_connection net ip q timeout = Raise e ->
  e = TimeoutError \/ e = ConnectionRefusedError \/ isinstance e OSError = true ->
  run_coro net (scan_port ip q timeout) =
  (Ok {| port := q; status := "closed"; banner := None; service := None |},
   [EvAcquire; EvConnect ip q timeout; EvRelease]).
Proof.
  intros Hconn Hcause. rewrite run_scan_port, Hconn.
  assert (catches [TimeoutError; ConnectionRefusedError; OSError] e = true)
    as ->; [|done].
  destruct Hcause as [->|[->|He]]; [done..|].
  unfold catches, existsb. rewrite He. by rewrite !orb_true_r.
Qed.

Lemma failed_connect_is_closed_witness :
  run_coro lab (scan_port "10.0.0.1" 81 3) =
  (Ok {| port := 81; status := "closed"; banner := None; service := None |},
   [EvAcquire; EvConnect "10.0.0.1" 81 3; EvRelease]).
Proof.
  apply (failed_connect_is_closed lab "10.0.0.1" 81 3 ConnectionRefusedError).
  - reflexivity.
  - right. left. reflexivity.
Defined.




(** C7: however the read ends, with data, with the end of the stream, with
    a time-out or with any exception, [grab_banner] has closed the writer it
    was given, once, after the read and before it ends.  A task of
    [scan_port] closes the connection it has opened, once, and closes
    nothing when the connection attempt has failed. *)
Theorem grab_banner_always_closes (net : Net) (reader : StreamReader)
    (writer : StreamWriter) (timeout : Q) :
  (exists r, run_coro net (grab_banner reader writer timeout) =
             (r, [EvRead reader 256 timeout; EvClose writer;
                  EvWaitClosed writer])) /\
  filter (fun ev => is_close_event ev = true)
    (snd (run_coro net (grab_banner reader writer timeout)))
  = [EvClose writer] /\
  (forall ip q t,
     filter (fun ev => is_close_event ev = true)
       (snd (run_coro net (scan_port ip q t)))
     = match open_connection net ip q t with
       | Ok (_, w) => [EvClose w]
       | Raise _ => []
       end).
Proof.
  rewrite run_grab_banner. split; [eauto|]. split; [done|].
  intros ip q t. rewrite run_scan_port.
  by destruct (open_connection net ip q t) as [[r w]|e].
Qed.

(** ** The event loop *)

Section pool_facts.
Context {A : Type} (net : Net).
Implicit Types (p : pool A) (t : coro A) (ts : list (coro A)).

Lemma step_task_Some i p p' :
  step_task net i p = Some p' ->
  exists (X : Type) (o : op X) (k : result X -> coro A),
    tasks p !! i = Some (Await o k) /\
    enabled (sem_value p) o = true /\
    p' = {| sem_value := sem_after (sem_value p) o;
            trace := trace p ++ [event_of o];
            failed := note_failure (failed p) (k (answer net o));
            tasks := <[i := k (answer net o)]> (tasks p) |}.
Proof.
  unfold step_task. destruct (tasks p !! i) as [[a|e|X o k]|]; try done.
  destruct (enabled (sem_value p) o) eqn:Hen; [|done].
  intros [= <-]. by exists X, o, k.
Qed.

Lemma count_tasks_cons (f : coro A -> bool) t ts :
  count_tasks f (t :: ts) = ((if f t then 1 else 0) + count_tasks f ts)%nat.
Proof.
  unfold count_tasks. rewrite filter_cons.
  destruct (f t); by case_decide.
Qed.

Lemma count_tasks_insert (f : coro A -> bool) ts i t t' :
  ts !! i = Some t ->
  (count_tasks f (<[i := t']> ts) + (if f t then 1 else 0)
   = count_tasks f ts + (if f t' then 1 else 0))%nat.
Proof.
  revert i. induction ts as [|x ts IH]; intros [|i] Hi; simplify_eq/=.
  - rewrite !count_tasks_cons. lia.
  - rewrite !count_tasks_cons. specialize (IH i Hi). lia.
Qed.

Lemma count_tasks_pos (f : coro A -> bool) ts :
  (0 < count_tasks f ts)%nat -> exists i t, ts !! i = Some t /\ f t = true.
Proof.
  unfold count_tasks. intros Hpos.
  destruct (filter (fun t => f t = true) ts) as [|t l] eqn:Hf; [simpl in Hpos; lia|].
  assert (t ∈ filter (fun t => f t = true) ts) as Hin by (rewrite Hf; left).
  apply list_elem_of_filter in Hin as [Hft Hin].
  apply list_elem_of_lookup in Hin as [i Hi]. eauto.
Qed.

Lemma probing_inside t :
  well_bracketed net t = true -> probing t = true -> inside net t = true.
Proof.
  unfold well_bracketed. destruct t as [a|e|X o k]; [done..|].
  destruct o; simpl; try done; rewrite orb_false_r; done.
Qed.

Lemma awaits_left_insert ts i {X} (o : op X) k :
  ts !! i = Some (Await o k) ->
  (awaits_left net (<[i := k (answer net o)]> ts) + 1 = awaits_left net ts)%nat.
Proof.
  unfold awaits_left.
  revert i. induction ts as [|x ts IH]; intros [|i] Hi; simplify_eq/=.
  - lia.
  - specialize (IH i Hi). lia.
Qed.

Lemma eval_insert ts i {X} (o : op X) k :
  ts !! i = Some (Await o k) ->
  eval net <$> <[i := k (answer net o)]> ts = eval net <$> ts.
Proof.
  intros Hi. rewrite list_fmap_insert. apply list_insert_id.
  by rewrite list_lookup_fmap, Hi, <-eval_Await.
Qed.

(** How the position of a task changes when it is resumed. *)
Lemma resume_position {X} (o : op X) (k : result X -> coro A) :
  well_bracketed net (Await o k) = true ->
  well_bracketed net (k (answer net o)) = true /\
  match kind_of o with
  | KAcquire =>
      inside net (Await o k) = false /\ inside net (k (answer net o)) = true
  | KRelease =>
      inside net (Await o k) = true /\ inside net (k (answer net o)) = false
  | KIO =>
      inside net (Await o k) = true /\ inside net (k (answer net o)) = true
  end.
Proof.
  unfold well_bracketed. simpl. rewrite orb_false_r.
  destruct (kind_of o); simpl; rewrite ?orb_false_r; intros Hk; rewrite Hk.
  - by rewrite orb_true_r.
  - rewrite orb_true_r. split; [done|]. split; [done|].
    by destruct (k (answer net o)).
  - by rewrite orb_true_r.
Qed.

Lemma pool_inv_step N i p p' :
  pool_inv net N p -> step_task net i p = Some p' -> pool_inv net N p'.
Proof.
  intros [Hshape Hslots Hnothrow Hfailed] Hstep.
  apply step_task_Some in Hstep as (X & o & k & Hi & Hen & ->).
  pose proof (Forall_lookup_1 _ _ _ _ Hshape Hi) as Hwb.
  apply resume_position in Hwb as [Hwb' Hpos].
  pose proof (count_tasks_insert (inside net) _ _ _ (k (answer net o)) Hi) as Hc.
  split; simpl.
  - by apply Forall_insert.
  - unfold holders in *. cbn [tasks sem_value].
    destruct o; cbn [kind_of] in Hpos; destruct Hpos as [Ha Hb];
      rewrite Ha, Hb in Hc; cbn [sem_after enabled] in *; try lia.
    apply negb_true_iff, Nat.eqb_neq in Hen. lia.
  - intros Hnone. unfold note_failure in Hnone.
    destruct (failed p); [done|].
    apply Forall_insert; [auto|]. by destruct (k (answer net o)).
  - intros e He. rewrite (eval_insert _ _ _ _ Hi).
    unfold note_failure in He. destruct (failed p) as [e'|] eqn:Hf.
    + simplify_eq. by apply Hfailed.
    + destruct (k (answer net o)) as [a|e'|Y o' k'] eqn:Hk; try done.
      simplify_eq. apply list_elem_of_fmap. exists (Await o k).
      split; [by rewrite eval_Await, Hk|].
      apply list_elem_of_lookup. eauto.
Qed.

Lemma pool_inv_rtc N p p' :
  pool_inv net N p -> rtc (pool_step net) p p' -> pool_inv net N p'.
Proof.
  intros Hinv Hsteps. induction Hsteps as [|p p' p'' [i ? ? Hstep] _ IH]; [done|].
  eauto using pool_inv_step.
Qed.

Lemma step_awaits_left i p p' :
  step_task net i p = Some p' ->
  (awaits_left net (tasks p') + 1 = awaits_left net (tasks p))%nat.
Proof.
  intros Hstep. apply step_task_Some in Hstep as (X & o & k & Hi & Hen & ->).
  simpl. by apply awaits_left_insert.
Qed.

Lemma step_eval i p p' :
  step_task net i p = Some p' ->
  eval net <$> tasks p' = eval net <$> tasks p.
Proof.
  intros Hstep. apply step_task_Some in Hstep as (X & o & k & Hi & Hen & ->).
  simpl. by apply eval_insert.
Qed.

Lemma rtc_eval p p' :
  rtc (pool_step net) p p' -> eval net <$> tasks p' = eval net <$> tasks p.
Proof.
  induction 1 as [|p p' p'' [i ? ? Hstep] _ IH]; [done|].
  rewrite IH. eauto using step_eval.
Qed.

Lemma step_task_length i p p' :
  step_task net i p = Some p' -> length (tasks p') = length (tasks p).
Proof.
  intros Hstep. apply step_task_Some in Hstep as (X & o & k & Hi & Hen & ->).
  simpl. by rewrite length_insert.
Qed.

(** With a limit of one or more, a pool whose [gather] is pending has a
    task that can be resumed. *)
Lemma pool_progress N p :
  pool_inv net N p -> (0 < N)%nat -> gather p = None ->
  exists i, (i < length (tasks p))%nat /\ is_Some (step_task net i p).
Proof.
  intros [Hshape Hslots Hnothrow _] HN Hg. unfold gather in Hg.
  destruct (failed p); [done|].
  destruct (mapM task_value (tasks p)) eqn:Hm; [done|].
  apply mapM_None_1, Exists_exists in Hm as (t & Hin & Hval).
  apply list_elem_of_lookup in Hin as [j Hj].
  specialize (Hnothrow eq_refl).
  pose proof (Forall_lookup_1 _ _ _ _ Hnothrow Hj) as Hnt.
  destruct t as [a|e|X o k]; [done..|].
  destruct (enabled (sem_value p) o) eqn:Hen.
  { exists j. split; [by eapply lookup_lt_Some|].
    unfold step_task. rewrite Hj, Hen. eauto. }
  destruct o; try done. simpl in Hen.
  apply negb_false_iff, Nat.eqb_eq in Hen.
  destruct (count_tasks_pos (inside net) (tasks p)) as (i & t & Hi & Ht).
  { unfold holders in Hslots. lia. }
  exists i. split; [by eapply lookup_lt_Some|].
  unfold step_task. rewrite Hi.
  destruct t as [a|e|X o k']; [done..|].
  destruct o; try done; simpl; eauto.
Qed.

Lemma next_step_sound order p p' rest :
  next_step net order p = Some (p', rest) -> pool_step net p p'.
Proof.
  induction order as [|i order IH]; simpl; [done|].
  destruct (step_task net i p) as [q|] eqn:Hstep; [|done].
  intros [= <- <-]. by econstructor.
Qed.

Lemma next_step_complete order p i :
  i ∈ order -> is_Some (step_task net i p) ->
  is_Some (next_step net order p).
Proof.
  intros Hin Hstep. induction Hin as [i order|i j order Hin IH]; simpl.
  - destruct Hstep as [q ->]. eauto.
  - destruct (step_task net j p); eauto.
Qed.

Lemma run_pool_rtc fuel sched p :
  rtc (pool_step net) p (run_pool net fuel sched p).
Proof.
  revert sched p. induction fuel as [|fuel IH]; intros sched p; simpl; [done|].
  destruct (gather p); [done|].
  destruct (next_step net sched p) as [[p' sched']|] eqn:Hnext.
  { eapply rtc_l; [by eapply next_step_sound|apply IH]. }
  destruct (next_step net (seq 0 (length (tasks p))) p) as [[p' rest]|] eqn:Hnext';
    [|done].
  eapply rtc_l; [by eapply next_step_sound|apply IH].
Qed.

Lemma pool_step_awaits_left p p' :
  pool_step net p p' ->
  (awaits_left net (tasks p') + 1 = awaits_left net (tasks p))%nat.
Proof. intros [i ? ? Hstep]. eauto using step_awaits_left. Qed.

(** The loop settles [gather]: the awaits that are left bound the number
    of steps. *)
Lemma run_pool_settles N fuel sched p :
  pool_inv net N p -> (0 < N)%nat ->
  (awaits_left net (tasks p) <= fuel)%nat ->
  is_Some (gather (run_pool net fuel sched p)).
Proof.
  intros Hinv HN. revert sched p Hinv.
  induction fuel as [|fuel IH]; intros sched p Hinv Hfuel; simpl.
  - destruct (gather p) eqn:Hg; [eauto|].
    destruct (pool_progress N p Hinv HN Hg) as (i & _ & p' & Hstep).
    apply step_awaits_left in Hstep. lia.
  - destruct (gather p) eqn:Hg; [rewrite Hg; eauto|].
    destruct (next_step net sched p) as [[p' sched']|] eqn:Hnext.
    { pose proof (next_step_sound _ _ _ _ Hnext) as Hstep.
      apply IH.
      - destruct Hstep. eauto using pool_inv_step.
      - apply pool_step_awaits_left in Hstep. lia. }
    destruct (pool_progress N p Hinv HN Hg) as (i & Hi & Hsome).
    destruct (next_step_complete (seq 0 (length (tasks p))) p i)
      as [[p' rest] Hnext']; [apply elem_of_seq; lia|done|].
    rewrite Hnext'.
    pose proof (next_step_sound _ _ _ _ Hnext') as Hstep.
    apply IH.
    + destruct Hstep. eauto using pool_inv_step.
    + apply pool_step_awaits_left in Hstep. lia.
Qed.

Lemma mapM_task_value ts values :
  mapM task_value ts = Some values -> ts = Return <$> values.
Proof.
  intros Hm. apply mapM_Some_1 in Hm.
  induction Hm as [|t a ts values Ht _ IH]; [done|].
  rewrite fmap_cons. f_equal; [|done]. by destruct t; simplify_eq/=.
Qed.

Lemma start_pool_inv N ts :
  Forall (fun t => waits net t = true) ts -> pool_inv net N (start_pool N ts).
Proof.
  intros Hw. split; simpl.
  - eapply Forall_impl; [done|]. intros t Ht. unfold well_bracketed.
    by rewrite Ht.
  - unfold holders. simpl.
    assert (count_tasks (inside net) ts = 0%nat) as ->; [|lia].
    induction Hw as [|t ts Ht _ IH]; [done|].
    rewrite count_tasks_cons, IH.
    destruct t as [a|e|X o k]; try done.
    simpl in *. by destruct (kind_of o).
  - intros _. eapply Forall_impl; [done|]. by intros [a|e|X o k].
  - done.
Qed.

(** When every task returns if run alone, the loop ends with [gather]
    settled on the values of the tasks, whichever order the tasks are
    resumed in. *)
Lemma run_pool_values N fuel sched ts :
  (0 < N)%nat ->
  Forall (fun t => waits net t = true) ts ->
  (awaits_left net ts <= fuel)%nat ->
  Forall (fun t => is_Some (match eval net t with Ok a => Some a | Raise _ => None end)) ts ->
  exists values,
    gather (run_pool net fuel sched (start_pool N ts)) = Some (Ok values) /\
    Ok <$> values = eval net <$> ts.
Proof.
  intros HN Hw Hfuel Hok.
  pose proof (start_pool_inv N ts Hw) as Hinv0.
  pose proof (run_pool_rtc fuel sched (start_pool N ts)) as Hrtc.
  pose proof (pool_inv_rtc _ _ _ Hinv0 Hrtc) as Hinv.
  pose proof (rtc_eval _ _ Hrtc) as Heval. simpl in Heval.
  destruct (run_pool_settles N fuel sched _ Hinv0 HN Hfuel) as [g Hg].
  revert Hinv Heval Hg. generalize (run_pool net fuel sched (start_pool N ts)).
  intros p Hinv Heval Hg. unfold gather in *.
  destruct (failed p) as [e|] eqn:Hf.
  { apply (inv_failed _ _ _ Hinv) in Hf. rewrite Heval in Hf.
    apply list_elem_of_fmap in Hf as (t & Ht & Hin).
    rewrite Forall_forall in Hok. specialize (Hok t Hin).
    rewrite <-Ht in Hok. by destruct Hok. }
  destruct (mapM task_value (tasks p)) as [values|] eqn:Hm; [|done].
  exists values. split; [done|].
  apply mapM_task_value in Hm. rewrite <-Heval, Hm, <-list_fmap_compose.
  done.
Qed.
End pool_facts.

(** ** [run_scan] *)

Lemma waits_scan_port (net : Net) (ip : string) (q : Z) (timeout : Q) :
  waits net (scan_port ip q timeout) = true.
Proof.
  unfold scan_port, async_with_semaphore, try_connect, grab_banner.
  generalize 256%nat as n. intros n.
  cbn -[catches take].
  destruct (open_connection net ip q timeout) as [[reader writer]|e];
    cbn -[catches take].
  - destruct (stream_data net reader (8 # 10)) as [data|e]; cbn -[catches take].
    + destruct (truthy_bytes (take n data)); cbn -[catches take];
        by destruct (wait_closed net writer).
    + destruct (catches [TimeoutError; IncompleteReadError] e);
        cbn -[catches take]; by destruct (wait_closed net writer).
  - by destruct (catches [TimeoutError; ConnectionRefusedError; OSError] e).
Qed.

Lemma eval_scan_port_port (net : Net) (ip : string) (q : Z) (timeout : Q)
    (r : PortResult) :
  eval net (scan_port ip q timeout) = Ok r -> port r = q.
Proof.
  unfold eval. rewrite run_scan_port.
  destruct (open_connection net ip q timeout) as [[reader writer]|e];
    cbn [fst].
  - destruct (fst (run_coro net (grab_banner reader writer (8 # 10))));
      intros ?; simplify_eq; reflexivity.
  - destruct (catches _ e); intros ?; simplify_eq; reflexivity.
Qed.

Lemma eval_scan_port_settles (net : Net) (ip : string) (q : Z) (timeout : Q) :
  probe_settles net ip timeout q ->
  exists r, eval net (scan_port ip q timeout) = Ok r.
Proof.
  unfold probe_settles, eval. rewrite run_scan_port.
  destruct (open_connection net ip q timeout) as [[reader writer]|e];
    cbn [fst].
  - rewrite run_grab_banner. cbn [fst].
    destruct (stream_data net reader (8 # 10)) as [data|e].
    + intros _. destruct (truthy_bytes (take 256 data)); eauto.
    + intros ->. eauto.
  - intros ->. eauto.
Qed.

(** A failed resolution ends the scan with the error of the resolution; no
    task has been made and nothing has been done on the network. *)
Lemma resolution_failure_aborts (net : Net) (sched : list nat)
    (target : string) (ports : list Z) (timeout : Q) (concurrency : Z)
    (e : exn) :
  resolve_target net target = Raise e ->
  run_scan net sched target ports timeout concurrency = Raises e /\
  scan_trace net sched target ports timeout concurrency = [].
Proof.
  intros Hres. unfold run_scan, scan_trace, scan_pool. by rewrite Hres.
Qed.

Lemma eval_scan_port_result (net : Net) (ip : string) (q : Z) (timeout : Q) :
  probe_settles net ip timeout q ->
  eval net (scan_port ip q timeout) = Ok (probe_result net ip timeout q).
Proof.
  intros Hq. unfold probe_result.
  by destruct (eval_scan_port_settles _ _ _ _ Hq) as [r ->].
Qed.

Lemma port_probe_result (net : Net) (ip : string) (timeout : Q) (q : Z) :
  port (probe_result net ip timeout q) = q.
Proof.
  unfold probe_result.
  destruct (eval net (scan_port ip q timeout)) as [r|e] eqn:He; [|done].
  by apply eval_scan_port_port in He.
Qed.

(** What [run_scan] returns, in closed form. *)
Lemma run_scan_returns (net : Net) (sched : list nat) (target ip : string)
    (ports : list Z) (timeout : Q) (concurrency : Z) :
  resolve_target net target = Ok ip ->
  1 <= concurrency ->
  Forall (probe_settles net ip timeout) ports ->
  run_scan net sched target ports timeout concurrency
  = Returns (probe_result net ip timeout <$> sorted id ports).
Proof.
  intros Hres Hconc Hsettle.
  unfold run_scan, scan_pool. rewrite Hres.
  destruct (Z.ltb_spec concurrency 0) as [?|_]; [lia|].
  change (map (fun p => scan_port ip p timeout) ports)
    with ((fun q => scan_port ip q timeout) <$> ports).
  set (ts := (fun q => scan_port ip q timeout) <$> ports).
  assert (eval net <$> ts = Ok <$> (probe_result net ip timeout <$> ports))
    as Hts.
  { subst ts. clear Hres. induction Hsettle as [|q ports Hq _ IH]; [done|].
    rewrite !fmap_cons, IH. by rewrite eval_scan_port_result. }
  destruct (run_pool_values net (Z.to_nat concurrency) (awaits_left net ts)
              sched ts) as (values & -> & Hvalues).
  - lia.
  - subst ts. apply Forall_fmap, Forall_forall. intros q _.
    apply waits_scan_port.
  - done.
  - apply Forall_forall. intros t Ht.
    assert (eval net t ∈ eval net <$> ts) as Hin by by apply list_elem_of_fmap_2.
    rewrite Hts in Hin. apply list_elem_of_fmap in Hin as (r & -> & _). eauto.
  - rewrite Hts in Hvalues.
    assert (values = probe_result net ip timeout <$> ports) as ->.
    { revert Hvalues. generalize (probe_result net ip timeout <$> ports).
      clear. induction values as [|r values IH]; intros [|r' l] Heq;
        simplify_eq/=; [done|]. f_equal. by apply IH. }
    f_equal. apply sorted_fmap_section, port_probe_result.
Qed.

(** C1, as the code has it: when the target resolves, the limit is one or
    more and every probe ends by itself, [run_scan] returns, whatever the
    order in which the tasks are resumed, one result for each requested
    port, each the result of the probe of its port, in ascending order of
    the port numbers; the requested ports in any other order give the same
    results. *)
Theorem run_scan_complete_sorted (net : Net) (sched : list nat)
    (target ip : string) (ports : list Z) (timeout : Q) (concurrency : Z) :
  resolve_target net target = Ok ip ->
  1 <= concurrency ->
  Forall (probe_settles net ip timeout) ports ->
  exists results,
    run_scan net sched target ports timeout concurrency = Returns results /\
    length results = length ports /\
    port <$> results = sorted id ports /\
    Sorted (key_le port) results /\
    Forall (fun r => eval net (scan_port ip (port r) timeout) = Ok r) results /\
    (forall sched' ports',
       ports' ≡ₚ ports ->
       run_scan net sched' target ports' timeout concurrency = Returns results).
Proof.
  intros Hres Hconc Hsettle.
  exists (probe_result net ip timeout <$> sorted id ports).
  split; [by apply run_scan_returns|].
  split; [by rewrite length_fmap, sorted_length|].
  assert (port <$> (probe_result net ip timeout <$> sorted id ports)
          = sorted id ports) as Hports.
  { rewrite <-list_fmap_compose. generalize (sorted id ports).
    intros l. induction l as [|q l IH]; [done|].
    rewrite fmap_cons, IH. simpl. by rewrite port_probe_result. }
  split; [done|]. split.
  { rewrite <-(sorted_fmap_section port) by apply port_probe_result.
    apply sorted_Sorted. }
  split.
  - apply Forall_fmap, Forall_forall. intros q Hq. simpl.
    rewrite port_probe_result. apply eval_scan_port_result.
    rewrite sorted_Permutation in Hq. rewrite Forall_forall in Hsettle. auto.
  - intros sched' ports' Hperm.
    rewrite <-(sorted_id_Permutation _ _ Hperm).
    apply run_scan_returns; [done..|]. by rewrite Hperm.
Qed.

Lemma run_scan_complete_sorted_witness :
  exists results,
    run_scan lab [2; 0; 2]%nat "lab.example" [82; 22; 81; 80] 3 2
      = Returns results /\
    length results = 4%nat /\
    port <$> results = sorted id [82; 22; 81; 80] /\
    Sorted (key_le port) results /\
    Forall (fun r => eval lab (scan_port "10.0.0.1" (port r) 3) = Ok r) results /\
    (forall sched' ports',
       ports' ≡ₚ [82; 22; 81; 80] ->
       run_scan lab sched' "lab.example" ports' 3 2 = Returns results).
Proof.
  apply (run_scan_complete_sorted lab [2; 0; 2]%nat "lab.example" "10.0.0.1"
           [82; 22; 81; 80] 3 2).
  - reflexivity.
  - lia.
  - repeat constructor.
Defined.

(** The scan of a host on which nothing listens: three closed ports, in
    ascending order. *)
Example run_scan_nothing_listens :
  run_scan quiet [] "127.0.0.1" [9999; 22; 80] 3 500 =
  Returns [closed_result 22; closed_result 80; closed_result 9999].
Proof. by vm_compute. Qed.

(** C1, as stated, fails: for a target that does not resolve [run_scan]
    raises and returns no result. *)
Lemma run_scan_unresolved_target_no_results :
  run_scan lab [] "nowhere.example" [22; 80] 3 2 = Raises gaierror /\
  forall results,
    run_scan lab [] "nowhere.example" [22; 80] 3 2 <> Returns results.
Proof. split; [by vm_compute|]. intros results. by vm_compute. Qed.

(** C8: a connection that is reset once it is accepted makes the read of
    the banner raise [ConnectionResetError]; [grab_banner] lets it through,
    and [run_scan] ends with this error although the target has resolved. *)
Theorem read_error_crosses_boundary :
  resolve_target lab "10.0.0.1" = Ok "10.0.0.1" /\
  eval lab (grab_banner 99%nat 99%nat (8 # 10)) = Raise ConnectionResetError /\
  run_scan lab [] "10.0.0.1" [99] 3 500 = Raises ConnectionResetError /\
  run_scan lab [] "10.0.0.1" [22; 99; 80] 3 500 = Raises ConnectionResetError.
Proof. repeat split; by vm_compute. Qed.

Lemma rtc_length {A : Type} (net : Net) (p p' : pool A) :
  rtc (pool_step net) p p' -> length (tasks p') = length (tasks p).
Proof.
  induction 1 as [|p p' p'' [i ? ? Hstep] _ IH]; [done|].
  rewrite IH. eauto using step_task_length.
Qed.

(** C9: in every state the pool of a scan can reach, whatever the order in
    which the tasks are resumed, the tasks that hold a slot of the
    semaphore and the free slots add up to the limit [N]; the tasks that
    are connecting or reading hold a slot, so there are at most [N] of
    them.  A task that waits for a slot can resume exactly when fewer than
    [N] slots are held.  When [gather] gives the values, every task has
    returned. *)
Theorem concurrency_limit_respected (net : Net) (N : nat) (ip : string)
    (ports : list Z) (timeout : Q) (p : pool PortResult) :
  rtc (pool_step net)
    (start_pool N (map (fun q => scan_port ip q timeout) ports)) p ->
  (in_flight p <= holders net p)%nat /\
  (sem_value p + holders net p = N)%nat /\
  (in_flight p <= N)%nat /\
  (forall i t,
     tasks p !! i = Some t -> waits net t = true ->
     (is_Some (step_task net i p) <-> (holders net p < N)%nat)) /\
  (forall values,
     gather p = Some (Ok values) ->
     tasks p = Return <$> values /\ length values = length ports).
Proof.
  intros Hrtc.
  assert (pool_inv net N p) as Hinv.
  { eapply pool_inv_rtc; [|done]. apply start_pool_inv.
    apply Forall_forall. intros t Ht.
    apply list_elem_of_In, in_map_iff in Ht as (q & <- & _).
    apply waits_scan_port. }
  destruct Hinv as [Hshape Hslots _ _].
  assert (in_flight p <= holders net p)%nat as Hle.
  { unfold in_flight, holders. revert Hshape. generalize (tasks p).
    intros ts Hshape. induction Hshape as [|t ts Ht _ IH]; [done|].
    rewrite !count_tasks_cons.
    destruct (probing t) eqn:Hp; [|lia].
    rewrite (probing_inside net t Ht Hp). lia. }
  split; [done|]. split; [done|]. split; [lia|]. split.
  - intros i t Hi Hw. unfold step_task. rewrite Hi.
    destruct t as [a|e|X o k]; [done..|].
    destruct o; try done. simpl.
    destruct (sem_value p) as [|v] eqn:Hv; simpl.
    + split; [by intros [? ?]|lia].
    + split; [lia|eauto].
  - intros values Hg. unfold gather in Hg.
    destruct (failed p); [done|].
    destruct (mapM task_value (tasks p)) as [vs|] eqn:Hm; [|done].
    simplify_eq. split; [by apply mapM_task_value|].
    apply length_mapM in Hm. apply rtc_length in Hrtc. simpl in Hrtc.
    rewrite length_map in Hrtc. lia.
Qed.

Lemma concurrency_limit_respected_witness :
  let p := run_pool lab 4 [0; 1; 1]%nat
             (start_pool 2
                (map (fun q => scan_port "10.0.0.1" q 3) [22; 80; 81; 82])) in
  (in_flight p <= holders lab p)%nat /\
  (sem_value p + holders lab p = 2)%nat /\
  (in_flight p <= 2)%nat /\
  (forall i t,
     tasks p !! i = Some t -> waits lab t = true ->
     (is_Some (step_task lab i p) <-> (holders lab p < 2)%nat)) /\
  (forall values,
     gather p = Some (Ok values) ->
     tasks p = Return <$> values /\ length values = 4%nat).
Proof.
  apply (concurrency_limit_respected lab 2 "10.0.0.1" [22; 80; 81; 82] 3).
  apply run_pool_rtc.
Defined.

(** * Further properties *)

(** ** Text *)

Lemma split_cons (sep : ascii) (s : string) :
  exists piece rest, split sep s = piece :: rest.
Proof.
  destruct s as [|c s]; simpl; [eauto|].
  destruct (Ascii.eqb c sep); [eauto|]. destruct (split sep s); eauto.
Qed.

Lemma split_app (sep : ascii) (s1 s2 : string) :
  split sep (s1 ++ String sep s2)%string = split sep s1 ++ split sep s2.
Proof.
  induction s1 as [|c s1 IH]; simpl.
  - by rewrite Ascii.eqb_refl.
  - rewrite IH. destruct (Ascii.eqb c sep); [done|].
    by destruct (split_cons sep s1) as (piece & rest & ->).
Qed.

Lemma split_no_sep (sep : ascii) (s : string) :
  all_chars (fun c => negb (Ascii.eqb c sep)) s = true -> split sep s = [s].
Proof.
  induction s as [|c s IH]; simpl; [done|].
  intros [Hc Hs]%andb_true_iff. apply negb_true_iff in Hc.
  by rewrite Hc, IH.
Qed.

Lemma all_chars_impl (f g : ascii -> bool) (s : string) :
  (forall c, f c = true -> g c = true) ->
  all_chars f s = true -> all_chars g s = true.
Proof.
  intros Hfg. induction s as [|c s IH]; simpl; [done|].
  intros [Hc Hs]%andb_true_iff. by rewrite (Hfg c Hc), IH.
Qed.

Lemma drop_while_none (f : ascii -> bool) (s : string) :
  all_chars (fun c => negb (f c)) s = true -> drop_while f s = s.
Proof.
  destruct s as [|c s]; simpl; [done|].
  intros [Hc _]%andb_true_iff. apply negb_true_iff in Hc. by rewrite Hc.
Qed.

Lemma drop_while_end_none (f : ascii -> bool) (s : string) :
  all_chars (fun c => negb (f c)) s = true -> drop_while_end f s = s.
Proof.
  induction s as [|c s IH]; simpl; [done|].
  intros [Hc Hs]%andb_true_iff. apply negb_true_iff in Hc.
  rewrite IH by done. by destruct s; rewrite ?Hc.
Qed.

Lemma strip_none (s : string) :
  all_chars (fun c => negb (is_space c)) s = true -> strip s = s.
Proof.
  intros Hs. unfold strip. by rewrite drop_while_none, drop_while_end_none.
Qed.

Lemma drop_while_all (f : ascii -> bool) (s : string) :
  drop_while f s = EmptyString -> all_chars f s = true.
Proof.
  induction s as [|c s IH]; simpl; [done|].
  destruct (f c); [done|]. done.
Qed.

Lemma drop_while_end_empty (f : ascii -> bool) (s : string) :
  drop_while_end f s = EmptyString -> all_chars f s = true.
Proof.
  induction s as [|c s IH]; simpl; [done|].
  destruct (drop_while_end f s); [|done].
  destruct (f c); [auto|done].
Qed.

Lemma all_chars_drop_while (f g : ascii -> bool) (s : string) :
  all_chars g (drop_while f s) = true -> (forall c, f c = true -> g c = true) ->
  all_chars g s = true.
Proof.
  intros Hd Hfg. induction s as [|c s IH]; simpl in *; [done|].
  destruct (f c) eqn:Hc.
  - by rewrite (Hfg c Hc), IH.
  - done.
Qed.

(** A text that [strip] empties is made of white space. *)
Lemma strip_empty (s : string) :
  strip s = EmptyString -> all_chars is_space s = true.
Proof.
  unfold strip. intros Hs. apply drop_while_end_empty in Hs.
  eapply all_chars_drop_while; eauto.
Qed.

Lemma str_in_char_none (c : ascii) (s : string) :
  all_chars (fun x => negb (Ascii.eqb x c)) s = true ->
  str_in (String c EmptyString) s = false.
Proof.
  induction s as [|x s IH]; simpl; [done|].
  intros [Hx Hs]%andb_true_iff. apply negb_true_iff in Hx.
  rewrite Ascii.eqb_sym, Hx. simpl. auto.
Qed.

(** ** [parse_ports] and [parse_ports_input] *)

Lemma parse_ports_sorted (ports_arg : option string) :
  StronglySorted Z.lt (parse_ports ports_arg).
Proof.
  destruct ports_arg as [[|c s]|]; try apply TOP_TCP_PORTS_ascending.
  rewrite parse_ports_nonempty.
  apply sorted_id_lt, NoDup_filter, NoDup_elements.
Qed.

(** Two strictly ascending lists with the same elements are the same list. *)
Lemma ascending_ext (l l' : list Z) :
  StronglySorted Z.lt l -> StronglySorted Z.lt l' ->
  (forall p, p ∈ l <-> p ∈ l') -> l = l'.
Proof.
  intros Hl Hl' Hiff. rewrite <-(sorted_id_unique l' l); [|done|].
  - symmetry. by apply sorted_id_unique.
  - apply NoDup_Permutation; auto using StronglySorted_lt_NoDup.
Qed.

Lemma elem_of_parse_ports_parts (s : string) (p : Z) :
  s <> EmptyString ->
  p ∈ parse_ports (Some s) <->
  1 <= p <= 65535 /\ exists part, part ∈ split "," s /\ p ∈ parse_part ∅ part.
Proof. destruct s as [|c s]; [done|]. intros _. apply elem_of_parse_ports. Qed.

Lemma append_nonempty_r (s t : string) :
  t <> EmptyString -> (s ++ t)%string <> EmptyString.
Proof. destruct s; [done|]. done. Qed.

(** X3: the result of two specifications joined by a comma holds the ports
    of the one and of the other, and does not depend on which comes
    first. *)
Theorem parse_ports_union (s1 s2 : string) :
  s1 <> EmptyString -> s2 <> EmptyString ->
  (forall p,
     p ∈ parse_ports (Some (s1 ++ String "," s2)%string) <->
     p ∈ parse_ports (Some s1) \/ p ∈ parse_ports (Some s2)) /\
  parse_ports (Some (s1 ++ String "," s2)%string)
  = parse_ports (Some (s2 ++ String "," s1)%string).
Proof.
  intros H1 H2.
  assert (forall t1 t2 p, t1 <> EmptyString -> t2 <> EmptyString ->
            p ∈ parse_ports (Some (t1 ++ String "," t2)%string) <->
            p ∈ parse_ports (Some t1) \/ p ∈ parse_ports (Some t2)) as Hunion.
  { intros t1 t2 p Ht1 Ht2.
    rewrite !elem_of_parse_ports_parts by (done || by apply append_nonempty_r).
    rewrite split_app. setoid_rewrite elem_of_app. naive_solver. }
  split; [intros p; by apply Hunion|].
  apply ascending_ext; [apply parse_ports_sorted..|].
  intros p. rewrite !Hunion by done. tauto.
Qed.

Lemma parse_ports_union_witness :
  parse_ports (Some ("80,443" ++ String "," "20-22")%string)
  = parse_ports (Some ("20-22" ++ String "," "80,443")%string).
Proof. apply (parse_ports_union "80,443" "20-22"); discriminate. Defined.

(** X4: a part that contributes nothing, because it is malformed or because
    it is a range whose start exceeds its end, can be added to a
    specification without changing the result. *)
Theorem parse_ports_ignores_empty_part (s part start end_ : string) (a b : Z) :
  s <> EmptyString ->
  all_chars (fun c => negb (Ascii.eqb c ",")) part = true ->
  (str_in "-" (strip part) = false /\ py_int (strip part) = None) \/
  (str_in "-" (strip part) = true /\ range_bounds (strip part) = None) \/
  (split_once "-" (strip part) = [start; end_] /\
   py_int start = Some a /\ py_int end_ = Some b /\ b < a) ->
  parse_ports (Some (s ++ String "," part)%string) = parse_ports (Some s).
Proof.
  intros Hs Hpart Hcase.
  assert (parse_part ∅ part = ∅) as Hnone.
  { unfold parse_part, range_bounds in *.
    destruct Hcase as [[-> ->]|[[-> ->]|(Hsplit & Ha & Hb & Hlt)]]; [done..|].
    rewrite (split_once_two _ _ _ _ Hsplit), Hsplit, Ha, Hb.
    unfold py_range. rewrite seqZ_nil by lia.
    apply leibniz_equiv. set_solver. }
  apply ascending_ext; [apply parse_ports_sorted..|].
  intros p.
  rewrite !elem_of_parse_ports_parts by (done || by apply append_nonempty_r).
  rewrite split_app, (split_no_sep _ part Hpart).
  setoid_rewrite elem_of_app. setoid_rewrite list_elem_of_singleton.
  split.
  - intros (Hv & q & [Hq| ->] & Hp); [eauto|].
    rewrite Hnone in Hp. by apply elem_of_empty in Hp.
  - intros (Hv & q & Hq & Hp). eauto.
Qed.

Lemma parse_ports_ignores_empty_part_witness :
  parse_ports (Some ("22,80" ++ String "," " 9-3 ")%string)
  = parse_ports (Some "22,80").
Proof.
  apply (parse_ports_ignores_empty_part "22,80" " 9-3 " "9" "3" 9 3).
  - discriminate.
  - reflexivity.
  - right. right. repeat split; reflexivity.
Defined.

Lemma parse_part_input_part (ports : gset Z) (part : string) :
  parse_part ports part = input_part ports (strip part).
Proof. done. Qed.

Lemma foldl_input_parts (parts : list string) (ports : gset Z) :
  foldl input_part ports
    (strip <$> filter (fun p => truthy_str (strip p) = true) parts)
  = foldl parse_part ports parts.
Proof.
  revert ports. induction parts as [|part parts IH]; intros ports; [done|].
  rewrite filter_cons. simpl. rewrite parse_part_input_part.
  destruct (strip part) as [|c t] eqn:Hpart.
  - case_decide; [done|]. apply IH.
  - case_decide; [|done]. rewrite fmap_cons. simpl. rewrite Hpart. apply IH.
Qed.

Lemma is_space_not_comma (c : ascii) :
  is_space c = true -> negb (Ascii.eqb c ",") = true.
Proof.
  destruct (Ascii.eqb_spec c ",") as [->|]; [|done]. by vm_compute.
Qed.

Lemma parse_ports_input_eq (s : string) :
  strip s <> EmptyString -> parse_ports_input s = parse_ports (Some s).
Proof.
  intros Hs. unfold parse_ports_input, parse_ports.
  destruct s as [|c s]; [done|]. cbn [truthy_str negb orb].
  destruct (String.eqb_spec (strip (String c s)) EmptyString) as [?|_];
    [done|].
  cbv zeta. by rewrite foldl_input_parts.
Qed.

(** X1: the parser of the user interface gives what [parse_ports] gives on
    every text that is not made of white space alone.  On a text of white
    space alone it gives the default ports, where [parse_ports] gives the
    default ports for the empty text only and no port otherwise. *)
Theorem parse_ports_input_agrees :
  (forall s, strip s <> EmptyString ->
             parse_ports_input s = parse_ports (Some s)) /\
  (forall s, strip s = EmptyString -> parse_ports_input s = TOP_TCP_PORTS) /\
  (forall s, s <> EmptyString -> strip s = EmptyString ->
             parse_ports (Some s) = []).
Proof.
  split; [apply parse_ports_input_eq|split].
  - intros s Hs. unfold parse_ports_input. rewrite Hs.
    by rewrite orb_true_r.
  - intros s Hne Hs. destruct s as [|c s]; [done|].
    rewrite parse_ports_nonempty.
    rewrite split_no_sep.
    + simpl foldl. rewrite parse_part_input_part, Hs. done.
    + eapply all_chars_impl; [apply is_space_not_comma|].
      by apply strip_empty.
Qed.

Lemma parse_ports_input_agrees_witness :
  parse_ports_input " 22, 80-82 ,x" = parse_ports (Some " 22, 80-82 ,x") /\
  parse_ports_input "  " = TOP_TCP_PORTS /\
  parse_ports (Some "  ") = [].
Proof.
  destruct parse_ports_input_agrees as (H1 & H2 & H3).
  split; [apply H1; discriminate|].
  split; [apply H2; reflexivity|].
  apply H3; [discriminate|reflexivity].
Defined.

(** ** Decimal text *)

Lemma digit_char_digit (d : Z) :
  0 <= d < 10 -> is_digit (digit_char d) = true /\ digit_value (digit_char d) = d.
Proof.
  intros Hd.
  assert (d = 0 \/ d = 1 \/ d = 2 \/ d = 3 \/ d = 4 \/ d = 5 \/ d = 6 \/
          d = 7 \/ d = 8 \/ d = 9) as Hcases by lia.
  repeat (destruct Hcases as [->|Hcases]; [by vm_compute|]).
  subst. by vm_compute.
Qed.

Lemma is_digit_other (c : ascii) :
  is_digit c = true ->
  is_space c = false /\ is_c_space c = false /\
  Ascii.eqb c "," = false /\ Ascii.eqb c "-" = false /\
  Ascii.eqb c "+" = false /\ Ascii.eqb c "_" = false.
Proof.
  intros Hc.
  destruct c as [[] [] [] [] [] [] [] []];
    try (vm_compute in Hc; discriminate); by vm_compute.
Qed.

Lemma scan_digits_digit (c : ascii) (s : string) (a : Z) (k : nat) :
  is_digit c = true ->
  scan_digits (String c s) false a k
  = scan_digits s false (10 * a + digit_value c) (S k).
Proof. intros Hc. simpl. by rewrite Hc. Qed.

(** Reading the digits of [n] gives [n] back. *)
Lemma scan_decimal_digits (f : nat) (n : Z) (s : string) :
  (1 <= f)%nat -> 0 <= n < 2 ^ Z.of_nat f ->
  exists d, (1 <= d <= f)%nat /\
    scan_digits (decimal_digits f n s) false 0 0 = scan_digits s false n d.
Proof.
  revert n s. induction f as [|f IH]; intros n s Hf Hn; [lia|].
  cbn [decimal_digits].
  destruct (digit_char_digit (n mod 10)) as [Hdig Hval];
    [apply Z.mod_pos_bound; lia|].
  destruct (Z.ltb_spec n 10) as [Hlt|Hge].
  - exists 1%nat. split; [lia|].
    rewrite scan_digits_digit, Hval by done.
    rewrite Z.mod_small by lia. done.
  - assert (1 <= f)%nat as Hf'.
    { destruct f; [|lia]. simpl in Hn. lia. }
    destruct (IH (n / 10) (String (digit_char (n mod 10)) s)) as (d & Hd & ->);
      [done| |].
    { split; [apply Z.div_pos; lia|].
      apply Z.div_lt_upper_bound; [lia|].
      rewrite Nat2Z.inj_succ, Z.pow_succ_r in Hn by lia. lia. }
    exists (S d). split; [lia|].
    rewrite scan_digits_digit, Hval by done.
    f_equal. pose proof (Z.div_mod n 10). lia.
Qed.

Lemma decimal_digits_head (f : nat) (n : Z) (s : string) :
  0 <= n ->
  exists c r, decimal_digits (S f) n s = String c r /\ is_digit c = true.
Proof.
  revert n s. induction f as [|f IH]; intros n s Hn.
  - cbn [decimal_digits].
    destruct (digit_char_digit (n mod 10)) as [Hdig _];
      [apply Z.mod_pos_bound; lia|].
    destruct (n <? 10); eauto.
  - change (decimal_digits (S (S f)) n s)
      with (if n <? 10 then String (digit_char (n mod 10)) s
            else decimal_digits (S f) (n / 10) (String (digit_char (n mod 10)) s)).
    destruct (Z.ltb_spec n 10).
    + destruct (digit_char_digit (n mod 10)) as [Hdig _];
        [apply Z.mod_pos_bound; lia|]. eauto.
    + apply IH. apply Z.div_pos; lia.
Qed.

Lemma all_chars_decimal_digits (f : nat) (n : Z) (s : string) :
  0 <= n -> all_chars is_digit s = true ->
  all_chars is_digit (decimal_digits f n s) = true.
Proof.
  revert n s. induction f as [|f IH]; intros n s Hn Hs; [done|].
  cbn [decimal_digits].
  destruct (digit_char_digit (n mod 10)) as [Hdig _];
    [apply Z.mod_pos_bound; lia|].
  destruct (n <? 10).
  - simpl. by rewrite Hdig.
  - apply IH; [apply Z.div_pos; lia|]. simpl. by rewrite Hdig.
Qed.

(** [int] on a text that starts with a digit: no white space to pass, no
    sign. *)
Lemma py_int_digit_head (c : ascii) (r : string) :
  is_digit c = true ->
  py_int (String c r) =
  match scan_digits (String c r) false 0 0 with
  | Some (v, n, rest) =>
      if (n =? 0)%nat then None
      else if (int_max_str_digits <? n)%nat then None
      else match drop_while is_c_space rest with
           | EmptyString => Some v
           | String _ _ => None
           end
  | None => None
  end.
Proof.
  intros Hc. unfold py_int.
  destruct (is_digit_other c Hc) as (_ & Hsp & _ & Hminus & Hplus & Hus).
  cbn [drop_while]. rewrite Hsp.
  assert (match String c r with
          | String "+" r0 => (1, r0)
          | String "-" r0 => (-1, r0)
          | _ => (1, String c r)
          end = (1, String c r)) as ->.
  { destruct c as [[] [] [] [] [] [] [] []]; try done;
      vm_compute in Hc; discriminate. }
  cbn [starts_with]. rewrite Ascii.eqb_sym, Hus. cbn [andb].
  destruct (scan_digits (String c r) false 0 0) as [[[v n] rest]|]; [|done].
  destruct (n =? 0)%nat; [done|].
  destruct (int_max_str_digits <? n)%nat; [done|].
  destruct (drop_while is_c_space rest); [|done].
  f_equal. lia.
Qed.

Lemma py_int_py_str_digits (n : Z) :
  0 <= n ->
  exists d, (1 <= d <= S (Z.to_nat (Z.log2 n)))%nat /\
    py_int (py_str n)
    = if (int_max_str_digits <? d)%nat then None else Some n.
Proof.
  intros Hn. unfold py_str. destruct (Z.ltb_spec n 0) as [?|_]; [lia|].
  set (f := S (Z.to_nat (Z.log2 n))).
  destruct (decimal_digits_head (Z.to_nat (Z.log2 n)) n EmptyString)
    as (c & r & Hhead & Hc); [lia|].
  fold f in Hhead.
  assert (0 <= n < 2 ^ Z.of_nat f) as Hf.
  { split; [lia|]. subst f.
    rewrite Nat2Z.inj_succ, Z2Nat.id by apply Z.log2_nonneg.
    destruct (decide (n = 0)) as [->|]; [done|].
    apply Z.log2_spec. lia. }
  destruct (scan_decimal_digits f n EmptyString) as (d & Hd & Hscan);
    [subst f; lia|done|].
  exists d. split; [done|].
  rewrite Hhead, py_int_digit_head by done. rewrite <-Hhead, Hscan.
  cbn [scan_digits].
  destruct d as [|d]; [lia|]. cbn [Nat.eqb].
  by destruct (int_max_str_digits <? S d)%nat.
Qed.

(** The decimal text of a number of at most 4300 binary digits reads back
    as the number. *)
Lemma py_int_py_str (n : Z) :
  0 <= n < 2 ^ 4299 -> py_int (py_str n) = Some n.
Proof.
  intros Hn. destruct (py_int_py_str_digits n) as (d & Hd & ->); [lia|].
  destruct (Nat.ltb_spec int_max_str_digits d) as [Hover|_]; [|done].
  unfold int_max_str_digits in Hover.
  destruct (decide (n = 0)) as [->|]; [simpl in Hd; lia|].
  assert (Z.log2 n < 4299) by (apply Z.log2_lt_pow2; lia). lia.
Qed.

Lemma py_str_chars (n : Z) : all_chars is_decimal_char (py_str n) = true.
Proof.
  unfold py_str. destruct (Z.ltb_spec n 0).
  - cbn [all_chars]. apply andb_true_iff. split; [done|].
    eapply all_chars_impl; [|apply all_chars_decimal_digits; [lia|done]].
    intros c Hc. unfold is_decimal_char. by rewrite Hc.
  - eapply all_chars_impl; [|apply all_chars_decimal_digits; [lia|done]].
    intros c Hc. unfold is_decimal_char. by rewrite Hc.
Qed.

Lemma is_decimal_char_other (c : ascii) :
  is_decimal_char c = true ->
  negb (is_space c) = true /\ negb (Ascii.eqb c ",") = true.
Proof.
  unfold is_decimal_char. intros [Hc|Hc]%orb_true_iff.
  - destruct (is_digit_other c Hc) as (-> & _ & -> & _). done.
  - apply Ascii.eqb_eq in Hc as ->. by vm_compute.
Qed.

Lemma strip_py_str (n : Z) : strip (py_str n) = py_str n.
Proof.
  apply strip_none. eapply all_chars_impl; [|apply py_str_chars].
  intros c Hc. by apply is_decimal_char_other.
Qed.

Lemma py_str_nonneg_chars (n : Z) :
  0 <= n -> all_chars is_digit (py_str n) = true.
Proof.
  intros Hn. unfold py_str. destruct (Z.ltb_spec n 0); [lia|].
  by apply all_chars_decimal_digits.
Qed.

Lemma all_chars_is_digit_no_minus (s : string) :
  all_chars is_digit s = true ->
  all_chars (fun x => negb (Ascii.eqb x "-")) s = true.
Proof.
  apply all_chars_impl. intros c Hc.
  destruct (is_digit_other c Hc) as (_ & _ & _ & -> & _). done.
Qed.

(** What the text of a number contributes as a part: the number itself, or
    nothing. *)
Lemma parse_part_py_str (n : Z) :
  (parse_part ∅ (py_str n) = {[ n ]} \/ parse_part ∅ (py_str n) = ∅) /\
  (1 <= n <= 65535 -> parse_part ∅ (py_str n) = {[ n ]}).
Proof.
  unfold parse_part. rewrite strip_py_str.
  destruct (Z.ltb_spec n 0) as [Hneg|Hpos].
  - split; [|lia]. right. unfold py_str.
    destruct (Z.ltb_spec n 0); [|lia]. done.
  - rewrite str_in_char_none
      by by apply all_chars_is_digit_no_minus, py_str_nonneg_chars.
    destruct (py_int_py_str_digits n Hpos) as (d & Hd & Hint). split.
    + rewrite Hint. destruct (int_max_str_digits <? d)%nat; [by right|left].
      apply leibniz_equiv. set_solver.
    + intros Hn. rewrite py_int_py_str.
      * apply leibniz_equiv. set_solver.
      * split; [lia|]. apply Z.lt_le_trans with (2 ^ 16); [lia|].
        apply Z.pow_le_mono_r; lia.
Qed.

Lemma join_cons (sep x y : string) (l : list string) :
  join sep (x :: y :: l) = (x ++ sep ++ join sep (y :: l))%string.
Proof. done. Qed.

Lemma split_join (l : list string) :
  l <> [] ->
  Forall (fun s => all_chars (fun c => negb (Ascii.eqb c ",")) s = true) l ->
  split "," (join "," l) = l.
Proof.
  intros Hne Hall. induction Hall as [|x l Hx Hl IH]; [done|].
  destruct l as [|y l].
  - by apply split_no_sep.
  - rewrite join_cons.
    change ("," ++ join "," (y :: l))%string with (String "," (join "," (y :: l))).
    rewrite split_app, (split_no_sep _ x Hx), IH; done.
Qed.

Lemma join_py_str_nonempty (l : list Z) :
  l <> [] -> strip (join "," (py_str <$> l)) <> EmptyString.
Proof.
  intros Hne Hs. apply strip_empty in Hs.
  destruct l as [|n l]; [done|].
  assert (exists c r, py_str n = String c r /\ is_decimal_char c = true)
    as (c & r & Hn & Hc).
  { pose proof (py_str_chars n) as Hchars. unfold py_str in *.
    destruct (Z.ltb_spec n 0).
    - eexists _, _. split; [done|]. done.
    - destruct (decimal_digits_head (Z.to_nat (Z.log2 n)) n EmptyString)
        as (c & r & Hhead & Hc); [lia|].
      exists c, r. split; [done|]. unfold is_decimal_char. by rewrite Hc. }
  assert (exists t, join "," (py_str <$> n :: l) = String c t) as [t Ht].
  { rewrite fmap_cons. destruct l as [|m l].
    - exists r. done.
    - rewrite fmap_cons, join_cons, Hn. simpl. eauto. }
  rewrite Ht in Hs. simpl in Hs. apply andb_true_iff in Hs as [Hsp _].
  apply is_decimal_char_other in Hc as [Hc _]. by rewrite Hsp in Hc.
Qed.

Lemma elem_of_parse_ports_join (l : list Z) (p : Z) :
  l <> [] ->
  p ∈ parse_ports (Some (join "," (py_str <$> l))) <->
  p ∈ l /\ 1 <= p <= 65535.
Proof.
  intros Hne.
  rewrite elem_of_parse_ports_parts.
  2:{ intros Hs. apply (join_py_str_nonempty l Hne). by rewrite Hs. }
  rewrite split_join.
  2:{ by destruct l. }
  2:{ apply Forall_fmap, Forall_forall. intros n _. simpl.
      eapply all_chars_impl; [|apply py_str_chars].
      intros c Hc. by apply is_decimal_char_other. }
  split.
  - intros (Hv & part & Hpart & Hp).
    apply list_elem_of_fmap in Hpart as (n & -> & Hn).
    destruct (parse_part_py_str n) as [[Hc|Hc] _]; rewrite Hc in Hp.
    + apply elem_of_singleton in Hp as ->. done.
    + by apply elem_of_empty in Hp.
  - intros [Hp Hv]. split; [done|]. exists (py_str p).
    split; [by apply list_elem_of_fmap_2|].
    destruct (parse_part_py_str p) as [_ Hc]. rewrite Hc by done.
    by apply elem_of_singleton.
Qed.

(** X2: the decimal texts of a non-empty list of integers, each of at most
    4300 digits, joined by commas, parse to the ports of the list that lie
    in [1, 65535]; a strictly ascending list of ports is read back as it is,
    by [parse_ports] and by the parser of the user interface, whose default
    text is made in this way from the default ports. *)
Theorem parse_ports_join_round_trip (l : list Z) :
  l <> [] ->
  Forall (fun p => Z.abs p < 10 ^ 4300) l ->
  (forall p,
     p ∈ parse_ports (Some (join "," (py_str <$> l))) <->
     p ∈ l /\ 1 <= p <= 65535) /\
  (StronglySorted Z.lt l -> Forall (fun p => 1 <= p <= 65535) l ->
   parse_ports (Some (join "," (py_str <$> l))) = l /\
   parse_ports_input (join "," (py_str <$> l)) = l).
Proof.
  intros Hne _. split; [intros p; by apply elem_of_parse_ports_join|].
  intros Hsorted Hvalid.
  assert (parse_ports (Some (join "," (py_str <$> l))) = l) as Hparse.
  { apply ascending_ext; [apply parse_ports_sorted|done|].
    intros p. rewrite elem_of_parse_ports_join by done.
    rewrite Forall_forall in Hvalid. naive_solver. }
  split; [done|].
  rewrite parse_ports_input_eq; [done|]. by apply join_py_str_nonempty.
Qed.

Lemma parse_ports_join_round_trip_witness :
  parse_ports (Some (join "," (py_str <$> TOP_TCP_PORTS))) = TOP_TCP_PORTS /\
  parse_ports_input (join "," (py_str <$> TOP_TCP_PORTS)) = TOP_TCP_PORTS.
Proof.
  apply (parse_ports_join_round_trip TOP_TCP_PORTS).
  - discriminate.
  - repeat constructor.
  - apply TOP_TCP_PORTS_ascending.
  - apply TOP_TCP_PORTS_valid.
Defined.

(** ** Records of a scan *)

Lemma grab_banner_text_length (net : Net) (reader : StreamReader)
    (writer : StreamWriter) (timeout : Q) (text : string) :
  eval net (grab_banner reader writer timeout) = Ok (Some text) ->
  (String.length text <= 256)%nat.
Proof.
  unfold eval. rewrite run_grab_banner. cbn [fst].
  destruct (stream_data net reader timeout) as [data|e].
  - destruct (truthy_bytes (take 256 data)); intros ?; simplify_eq.
    etrans; [apply length_strip|]. etrans; [apply length_decode_ignore|].
    rewrite length_take. lia.
  - destruct (catches _ e); intros ?; simplify_eq.
Qed.

Lemma scan_port_shape (net : Net) (ip : string) (q : Z) (timeout : Q)
    (r : PortResult) :
  eval net (scan_port ip q timeout) = Ok r -> result_shape q r.
Proof.
  unfold eval. rewrite run_scan_port.
  destruct (open_connection net ip q timeout) as [[reader writer]|e];
    cbn [fst].
  - destruct (fst (run_coro net (grab_banner reader writer (8 # 10))))
      as [text|e] eqn:Hgrab; intros ?; simplify_eq.
    split; [done|]. right. split; [done|]. split; [done|].
    destruct text as [text|]; [|done].
    by apply (grab_banner_text_length net reader writer (8 # 10)).
  - destruct (catches _ e); intros ?; simplify_eq.
    split; [done|]. by left.
Qed.

(** What it takes for [run_scan] to return. *)
Lemma run_scan_Returns (net : Net) (sched : list nat) (target : string)
    (ports : list Z) (timeout : Q) (concurrency : Z)
    (results : list PortResult) :
  run_scan net sched target ports timeout concurrency = Returns results ->
  exists ip values p,
    resolve_target net target = Ok ip /\
    0 <= concurrency /\
    scan_pool net sched target ports timeout concurrency = Ok p /\
    rtc (pool_step net)
      (start_pool (Z.to_nat concurrency)
         ((fun q => scan_port ip q timeout) <$> ports)) p /\
    tasks p = Return <$> values /\
    results = sorted port values /\
    Forall2 (fun q r => eval net (scan_port ip q timeout) = Ok r) ports values.
Proof.
  unfold run_scan, scan_pool.
  destruct (resolve_target net target) as [ip|e]; [|done].
  destruct (Z.ltb_spec concurrency 0) as [?|Hc]; [done|].
  change (map (fun p => scan_port ip p timeout) ports)
    with ((fun q => scan_port ip q timeout) <$> ports).
  set (ts := (fun q => scan_port ip q timeout) <$> ports).
  pose proof (run_pool_rtc net (awaits_left net ts) sched
                (start_pool (Z.to_nat concurrency) ts)) as Hrtc.
  revert Hrtc.
  generalize (run_pool net (awaits_left net ts) sched
                (start_pool (Z.to_nat concurrency) ts)).
  intros p Hrtc Hret. unfold gather in Hret.
  destruct (failed p); [done|].
  destruct (mapM task_value (tasks p)) as [values|] eqn:Hm; [|done].
  simplify_eq. exists ip, values, p.
  apply mapM_task_value in Hm.
  split; [done|]. split; [done|]. split; [done|]. split; [done|].
  split; [done|]. split; [done|].
  apply rtc_eval in Hrtc. rewrite Hm in Hrtc. simpl in Hrtc.
  subst ts. clear Hm. revert values Hrtc.
  induction ports as [|q ports IH]; intros [|r values] Heq; simplify_eq/=;
    constructor; [by unfold eval|by apply IH].
Qed.

(** X5: every record [run_scan] returns is the record of a requested port
    and has one of two shapes: closed, without banner and without service;
    or open, with the service inferred from the port and the banner, and a
    banner of at most 256 characters.  There are as many records as
    requested ports, in ascending order of the ports. *)
Theorem run_scan_result_shape (net : Net) (sched : list nat) (target : string)
    (ports : list Z) (timeout : Q) (concurrency : Z)
    (results : list PortResult) :
  run_scan net sched target ports timeout concurrency = Returns results ->
  length results = length ports /\
  port <$> results = sorted id ports /\
  Sorted (key_le port) results /\
  Forall (fun r => port r ∈ ports /\ result_shape (port r) r) results.
Proof.
  intros Hret.
  apply run_scan_Returns in Hret
    as (ip & values & p & _ & _ & _ & _ & _ & -> & Hvalues).
  assert (port <$> values = ports) as Hports.
  { induction Hvalues as [|q r ports values Hr _ IH]; [done|].
    rewrite fmap_cons, IH. by rewrite (eval_scan_port_port _ _ _ _ _ Hr). }
  split; [by rewrite sorted_length, <-Hports, length_fmap|].
  split; [by rewrite sorted_fmap_key, Hports|].
  split; [apply sorted_Sorted|].
  rewrite sorted_Permutation. rewrite <-Hports.
  clear Hports. induction Hvalues as [|q r ports values Hr _ IH]; [done|].
  pose proof (eval_scan_port_port _ _ _ _ _ Hr) as Hq.
  constructor.
  - split; [rewrite fmap_cons; left|]. rewrite Hq. by eapply scan_port_shape.
  - eapply Forall_impl; [apply IH|]. intros r' [Hin Hshape].
    split; [rewrite fmap_cons; by right|done].
Qed.

Lemma run_scan_result_shape_witness :
  Forall (fun r => port r ∈ [23; 81; 22] /\ result_shape (port r) r)
    [open_result 22 (Some "SSH-2.0-OpenSSH_8.0");
     open_result 23 (Some EmptyString); closed_result 81].
Proof.
  apply (run_scan_result_shape lab [1; 1]%nat "lab.example" [23; 81; 22] 3 2).
  reflexivity.
Defined.

(** ** Failures and the limit *)

Lemma eval_scan_port_unsettled (net : Net) (ip : string) (q : Z) (timeout : Q) :
  ~ probe_settles net ip timeout q ->
  exists e, eval net (scan_port ip q timeout) = Raise e.
Proof.
  unfold probe_settles, eval. rewrite run_scan_port.
  destruct (open_connection net ip q timeout) as [[reader writer]|e];
    cbn [fst].
  - rewrite run_grab_banner. cbn [fst].
    destruct (stream_data net reader (8 # 10)) as [data|e]; [done|].
    destruct (catches _ e); [done|]. eauto.
  - destruct (catches _ e); [done|]. eauto.
Qed.

Lemma probe_settles_dec (net : Net) (ip : string) (timeout : Q) (q : Z) :
  probe_settles net ip timeout q \/ ~ probe_settles net ip timeout q.
Proof.
  unfold probe_settles.
  destruct (open_connection net ip q timeout) as [[reader writer]|e].
  - destruct (stream_data net reader (8 # 10)) as [data|e]; [by left|].
    destruct (catches _ e); [by left|by right].
  - destruct (catches _ e); [by left|by right].
Qed.

Lemma scan_pool_settles (net : Net) (sched : list nat) (ip : string)
    (ports : list Z) (timeout : Q) (N : nat) :
  (0 < N)%nat ->
  let ts := (fun q => scan_port ip q timeout) <$> ports in
  let p := run_pool net (awaits_left net ts) sched (start_pool N ts) in
  pool_inv net N p /\ eval net <$> tasks p = eval net <$> ts /\
  is_Some (gather p).
Proof.
  intros HN ts p.
  assert (pool_inv net N (start_pool N ts)) as Hinv0.
  { apply start_pool_inv. subst ts. apply Forall_fmap, Forall_forall.
    intros q _. apply waits_scan_port. }
  pose proof (run_pool_rtc net (awaits_left net ts) sched (start_pool N ts))
    as Hrtc.
  split; [by eapply pool_inv_rtc|].
  split; [by apply rtc_eval in Hrtc|].
  by eapply run_pool_settles.
Qed.

(** X6: a scan is all or nothing.  With a target that resolves and a limit
    of one or more, [run_scan] returns when every probe ends by itself, and
    only then; when the probe of one port raises, [run_scan] raises the
    error of a probe, whatever the other probes have found and whatever the
    order in which the tasks are resumed. *)
Theorem run_scan_all_or_nothing (net : Net) (sched : list nat)
    (target ip : string) (ports : list Z) (timeout : Q) (concurrency : Z) :
  resolve_target net target = Ok ip ->
  1 <= concurrency ->
  ((exists results,
      run_scan net sched target ports timeout concurrency = Returns results)
   <-> Forall (probe_settles net ip timeout) ports) /\
  (Exists (fun q => ~ probe_settles net ip timeout q) ports ->
   exists e q,
     q ∈ ports /\
     eval net (scan_port ip q timeout) = Raise e /\
     run_scan net sched target ports timeout concurrency = Raises e).
Proof.
  intros Hres Hconc.
  assert (Exists (fun q => ~ probe_settles net ip timeout q) ports ->
          exists e q, q ∈ ports /\
            eval net (scan_port ip q timeout) = Raise e /\
            run_scan net sched target ports timeout concurrency = Raises e)
    as Hraise.
  { intros (q0 & Hq0 & Hun)%Exists_exists.
    apply eval_scan_port_unsettled in Hun as [e0 He0].
    unfold run_scan, scan_pool. rewrite Hres.
    destruct (Z.ltb_spec concurrency 0) as [?|_]; [lia|].
    change (map (fun p => scan_port ip p timeout) ports)
      with ((fun q => scan_port ip q timeout) <$> ports).
    destruct (scan_pool_settles net sched ip ports timeout
                (Z.to_nat concurrency)) as (Hinv & Heval & Hg); [lia|].
    revert Hinv Heval Hg.
    generalize (run_pool net
      (awaits_left net ((fun q => scan_port ip q timeout) <$> ports)) sched
      (start_pool (Z.to_nat concurrency)
         ((fun q => scan_port ip q timeout) <$> ports))).
    intros p Hinv Heval [g Hg]. rewrite Hg. unfold gather in Hg.
    destruct (failed p) as [e|] eqn:Hf.
    - simplify_eq. apply (inv_failed _ _ _ Hinv) in Hf.
      rewrite Heval, <-list_fmap_compose in Hf.
      apply list_elem_of_fmap in Hf as (q & Hq & Hin). eauto.
    - destruct (mapM task_value (tasks p)) as [values|] eqn:Hm; [|done].
      apply mapM_task_value in Hm. rewrite Hm in Heval.
      assert (eval net (scan_port ip q0 timeout)
              ∈ eval net <$> ((fun q => scan_port ip q timeout) <$> ports))
        as Hin.
      { apply list_elem_of_fmap_2.
        by apply (list_elem_of_fmap_2 (fun q => scan_port ip q timeout)). }
      rewrite <-Heval, He0, <-list_fmap_compose in Hin.
      by apply list_elem_of_fmap in Hin as (r & ? & _). }
  split; [|done]. split.
  - intros [results Hret]. apply Forall_forall. intros q Hq.
    destruct (probe_settles_dec net ip timeout q) as [?|Hun]; [done|].
    destruct Hraise as (e & q' & _ & _ & Hr).
    { apply Exists_exists. eauto. }
    by rewrite Hr in Hret.
  - intros Hall. eexists. by apply run_scan_returns.
Qed.

Lemma run_scan_all_or_nothing_witness :
  exists e q,
    q ∈ [22; 99; 80] /\
    eval lab (scan_port "10.0.0.1" q 3) = Raise e /\
    run_scan lab [2; 2; 2; 2]%nat "lab.example" [22; 99; 80] 3 3 = Raises e.
Proof.
  apply (run_scan_all_or_nothing lab [2; 2; 2; 2]%nat "lab.example" "10.0.0.1"
           [22; 99; 80] 3 3).
  - reflexivity.
  - lia.
  - apply Exists_cons_tl, Exists_cons_hd. vm_compute. discriminate.
Defined.

Lemma next_step_blocked (net : Net) (order : list nat) (ip : string)
    (ports : list Z) (timeout : Q) :
  next_step net order
    (start_pool 0 ((fun q => scan_port ip q timeout) <$> ports)) = None.
Proof.
  induction order as [|i order IH]; [done|].
  cbn [next_step]. rewrite IH.
  unfold step_task. cbn [tasks start_pool]. rewrite list_lookup_fmap.
  by destruct (ports !! i).
Qed.

Lemma gather_start_pending (N : nat) (ip : string) (ports : list Z)
    (timeout : Q) :
  ports <> [] ->
  gather (start_pool N ((fun q => scan_port ip q timeout) <$> ports)) = None.
Proof. by destruct ports. Qed.

(** X7: the limit at its edges, for a target that resolves.  A negative
    limit makes [run_scan] raise [ValueError] and a limit of zero with at
    least one port makes it wait for ever, in both cases before anything is
    done on the network; without ports it returns the empty list; with a
    limit of one or more it never waits for ever. *)
Theorem run_scan_limit_edges (net : Net) (sched : list nat)
    (target ip : string) (ports : list Z) (timeout : Q) (concurrency : Z) :
  resolve_target net target = Ok ip ->
  (concurrency < 0 ->
   run_scan net sched target ports timeout concurrency = Raises ValueError /\
   scan_trace net sched target ports timeout concurrency = []) /\
  (concurrency = 0 -> ports <> [] ->
   run_scan net sched target ports timeout concurrency = Hangs /\
   scan_trace net sched target ports timeout concurrency = []) /\
  (0 <= concurrency -> ports = [] ->
   run_scan net sched target ports timeout concurrency = Returns []) /\
  (1 <= concurrency ->
   run_scan net sched target ports timeout concurrency <> Hangs).
Proof.
  intros Hres. unfold run_scan, scan_trace, scan_pool. rewrite Hres.
  split; [|split; [|split]].
  - intros Hneg. by destruct (Z.ltb_spec concurrency 0); [|lia].
  - intros -> Hports. cbn [Z.ltb Z.compare Z.to_nat].
    change (map (fun p => scan_port ip p timeout) ports)
      with ((fun q => scan_port ip q timeout) <$> ports).
    assert (forall fuel,
              run_pool net fuel sched
                (start_pool 0 ((fun q => scan_port ip q timeout) <$> ports))
              = start_pool 0 ((fun q => scan_port ip q timeout) <$> ports))
      as ->.
    { intros [|fuel]; [done|]. cbn [run_pool].
      rewrite gather_start_pending by done.
      by rewrite !(next_step_blocked net _ ip ports timeout). }
    by rewrite gather_start_pending.
  - intros Hc ->. by destruct (Z.ltb_spec concurrency 0); [lia|].
  - intros Hc. destruct (Z.ltb_spec concurrency 0) as [?|_]; [lia|].
    change (map (fun p => scan_port ip p timeout) ports)
      with ((fun q => scan_port ip q timeout) <$> ports).
    destruct (scan_pool_settles net sched ip ports timeout
                (Z.to_nat concurrency)) as (_ & _ & [g Hg]); [lia|].
    rewrite Hg. by destruct g.
Qed.

Lemma run_scan_limit_edges_witness :
  run_scan lab [] "lab.example" [22; 80] 3 0 = Hangs /\
  scan_trace lab [] "lab.example" [22; 80] 3 0 = [].
Proof.
  apply (run_scan_limit_edges lab [] "lab.example" "10.0.0.1" [22; 80] 3 0).
  - reflexivity.
  - reflexivity.
  - discriminate.
Defined.

(** ** What a scan does on the network *)

Lemma snd_run_coro_Await {A X : Type} (net : Net) (o : op X)
    (k : result X -> coro A) :
  snd (run_coro net (Await o k))
  = event_of o :: snd (run_coro net (k (answer net o))).
Proof. simpl. by destruct (run_coro net (k (answer net o))). Qed.

Lemma pending_events_insert {A X : Type} (net : Net) (ts : list (coro A))
    (i : nat) (o : op X) (k : result X -> coro A) :
  ts !! i = Some (Await o k) ->
  event_of o :: pending_events net (<[i := k (answer net o)]> ts)
  ≡ₚ pending_events net ts.
Proof.
  revert i. induction ts as [|t ts IH]; intros [|i] Hi; try done.
  - injection Hi as ->.
    change (event_of o :: snd (run_coro net (k (answer net o)))
              ++ pending_events net ts
            ≡ₚ snd (run_coro net (Await o k)) ++ pending_events net ts).
    by rewrite snd_run_coro_Await.
  - change (event_of o :: snd (run_coro net t)
              ++ pending_events net (<[i := k (answer net o)]> ts)
            ≡ₚ snd (run_coro net t) ++ pending_events net ts).
    rewrite <-(IH i Hi). by rewrite Permutation_middle.
Qed.

Lemma step_trace {A : Type} (net : Net) (i : nat) (p p' : pool A) :
  step_task net i p = Some p' ->
  trace p' ++ pending_events net (tasks p')
  ≡ₚ trace p ++ pending_events net (tasks p).
Proof.
  intros Hstep. apply step_task_Some in Hstep as (X & o & k & Hi & _ & ->).
  cbn [trace tasks]. rewrite <-(pending_events_insert net _ _ _ _ Hi).
  by rewrite <-app_assoc.
Qed.

Lemma rtc_trace {A : Type} (net : Net) (p p' : pool A) :
  rtc (pool_step net) p p' ->
  trace p' ++ pending_events net (tasks p')
  ≡ₚ trace p ++ pending_events net (tasks p).
Proof.
  induction 1 as [|p p' p'' [i ? ? Hstep] _ IH]; [done|].
  rewrite IH. eauto using step_trace.
Qed.

Lemma pending_events_done {A : Type} (net : Net) (values : list A) :
  pending_events net (Return <$> values) = [].
Proof. unfold pending_events. by induction values. Qed.

Lemma filter_pending_events (net : Net) (ip : string) (timeout : Q)
    (f : event -> bool) (g : Z -> list event) (ports : list Z) :
  (forall q,
     filter (fun ev => f ev = true) (snd (run_coro net (scan_port ip q timeout)))
     = g q) ->
  filter (fun ev => f ev = true)
    (pending_events net ((fun q => scan_port ip q timeout) <$> ports))
  = concat (g <$> ports).
Proof.
  intros Hg. unfold pending_events.
  induction ports as [|q ports IH]; [done|].
  rewrite !fmap_cons. cbn [concat]. by rewrite filter_app, Hg, IH.
Qed.

(** X8: when [run_scan] returns it has tried each requested port once, at
    the resolved address and with the given time-out, has closed each
    connection it has opened once, and has taken and given back the
    semaphore once for each port. *)
Theorem run_scan_trace_accounts (net : Net) (sched : list nat)
    (target ip : string) (ports : list Z) (timeout : Q) (concurrency : Z)
    (results : list PortResult) :
  run_scan net sched target ports timeout concurrency = Returns results ->
  resolve_target net target = Ok ip ->
  let evs := scan_trace net sched target ports timeout concurrency in
  filter (fun ev => is_connect_event ev = true) evs
    ≡ₚ (fun q => EvConnect ip q timeout) <$> ports /\
  filter (fun ev => is_close_event ev = true) evs
    ≡ₚ EvClose <$> omap (opened_writer net ip timeout) ports /\
  length (filter (fun ev => is_acquire_event ev = true) evs) = length ports /\
  length (filter (fun ev => is_release_event ev = true) evs) = length ports.
Proof.
  intros Hret Hres.
  apply run_scan_Returns in Hret
    as (ip' & values & p & Hres' & _ & Hpool & Hrtc & Htasks & _ & _).
  rewrite Hres in Hres'. simplify_eq.
  unfold scan_trace. rewrite Hpool. cbn zeta.
  apply rtc_trace in Hrtc.
  rewrite Htasks, pending_events_done, app_nil_r in Hrtc.
  cbn [trace tasks start_pool app] in Hrtc.
  rewrite !Hrtc.
  rewrite (filter_pending_events net ip' timeout is_connect_event
             (fun q => [EvConnect ip' q timeout])).
  2:{ intros q. rewrite run_scan_port.
      by destruct (open_connection net ip' q timeout) as [[r w]|e]. }
  rewrite (filter_pending_events net ip' timeout is_close_event
             (fun q => match opened_writer net ip' timeout q with
                       | Some w => [EvClose w]
                       | None => []
                       end)).
  2:{ intros q. rewrite run_scan_port. unfold opened_writer.
      by destruct (open_connection net ip' q timeout) as [[r w]|e]. }
  rewrite (filter_pending_events net ip' timeout is_acquire_event
             (fun q => [EvAcquire])).
  2:{ intros q. rewrite run_scan_port.
      by destruct (open_connection net ip' q timeout) as [[r w]|e]. }
  rewrite (filter_pending_events net ip' timeout is_release_event
             (fun q => [EvRelease])).
  2:{ intros q. rewrite run_scan_port.
      by destruct (open_connection net ip' q timeout) as [[r w]|e]. }
  split; [|split; [|split]].
  - clear. induction ports as [|q ports IH]; [done|].
    rewrite !fmap_cons. simpl. by rewrite IH.
  - clear. induction ports as [|q ports IH]; [done|].
    rewrite fmap_cons. cbn [concat]. rewrite IH. simpl.
    by destruct (opened_writer net ip' timeout q).
  - clear. induction ports as [|q ports IH]; [done|].
    rewrite fmap_cons. simpl. by rewrite IH.
  - clear. induction ports as [|q ports IH]; [done|].
    rewrite fmap_cons. simpl. by rewrite IH.
Qed.

Lemma run_scan_trace_accounts_witness :
  let evs := scan_trace lab [1; 0; 1; 2]%nat "lab.example" [22; 81; 80] 3 2 in
  filter (fun ev => is_connect_event ev = true) evs
    ≡ₚ (fun q => EvConnect "10.0.0.1" q 3) <$> [22; 81; 80] /\
  filter (fun ev => is_close_event ev = true) evs
    ≡ₚ EvClose <$> omap (opened_writer lab "10.0.0.1" 3) [22; 81; 80] /\
  length (filter (fun ev => is_acquire_event ev = true) evs) = 3%nat /\
  length (filter (fun ev => is_release_event ev = true) evs) = 3%nat.
Proof.
  eapply (run_scan_trace_accounts lab [1; 0; 1; 2]%nat "lab.example"
            "10.0.0.1" [22; 81; 80] 3 2).
  - reflexivity.
  - reflexivity.
Defined.

(** ** The callers of [run_scan] *)

(** X9: without a list of ports [run_scan_sync] scans the default ports:
    when every probe ends by itself the results are those of the default
    ports, in the order of the default list. *)
Theorem run_scan_sync_default_ports (net : Net) (sched : list nat)
    (target ip : string) (timeout : Q) (concurrency : Z) :
  resolve_target net target = Ok ip ->
  1 <= concurrency ->
  Forall (probe_settles net ip timeout) TOP_TCP_PORTS ->
  exists results,
    run_scan_sync net sched target None timeout concurrency = Returns results /\
    port <$> results = TOP_TCP_PORTS /\
    length results = 20%nat /\
    run_scan_sync net sched target (Some TOP_TCP_PORTS) timeout concurrency
    = Returns results.
Proof.
  intros Hres Hconc Hsettle. unfold run_scan_sync.
  rewrite (run_scan_returns net sched target ip) by done.
  rewrite (sorted_id_unique TOP_TCP_PORTS TOP_TCP_PORTS)
    by (apply TOP_TCP_PORTS_ascending || done).
  eexists. split; [done|]. split; [|done].
  rewrite <-list_fmap_compose. generalize TOP_TCP_PORTS.
  intros l. induction l as [|q l IH]; [done|].
  rewrite fmap_cons, IH. simpl. by rewrite port_probe_result.
Qed.

Lemma run_scan_sync_default_ports_witness :
  exists results,
    run_scan_sync lab [] "lab.example" None 3 50 = Returns results /\
    port <$> results = TOP_TCP_PORTS /\
    length results = 20%nat /\
    run_scan_sync lab [] "lab.example" (Some TOP_TCP_PORTS) 3 50
    = Returns results.
Proof.
  apply (run_scan_sync_default_ports lab [] "lab.example" "10.0.0.1" 3 50).
  - reflexivity.
  - lia.
  - repeat constructor.
Defined.

Lemma fmap_port_probe_result (net : Net) (ip : string) (timeout : Q)
    (l : list Z) :
  port <$> (probe_result net ip timeout <$> l) = l.
Proof.
  induction l as [|q l IH]; [done|].
  rewrite !fmap_cons, IH. by rewrite port_probe_result.
Qed.

(** X10: the scan of the ports [parse_ports] has read, as [main] runs it:
    when every probe ends by itself the results list exactly the parsed
    ports, in the parsed order; no port comes twice and every port is a
    valid TCP port. *)
Theorem run_scan_of_parsed_ports (net : Net) (sched : list nat)
    (target ip : string) (ports_arg : option string) (timeout : Q)
    (concurrency : Z) :
  resolve_target net target = Ok ip ->
  1 <= concurrency ->
  Forall (probe_settles net ip timeout) (parse_ports ports_arg) ->
  exists results,
    run_scan net sched target (parse_ports ports_arg) timeout concurrency
    = Returns results /\
    port <$> results = parse_ports ports_arg /\
    NoDup (port <$> results) /\
    Forall (fun r => 1 <= port r <= 65535) results.
Proof.
  intros Hres Hconc Hsettle.
  rewrite (run_scan_returns net sched target ip) by done.
  pose proof (parse_ports_sorted ports_arg) as Hsorted.
  rewrite (sorted_id_unique (parse_ports ports_arg) (parse_ports ports_arg))
    by done.
  eexists. split; [done|]. rewrite fmap_port_probe_result.
  split; [done|]. split; [by apply StronglySorted_lt_NoDup|].
  apply Forall_fmap, Forall_forall. intros q Hq. simpl.
  rewrite port_probe_result.
  destruct ports_arg as [[|c s]|].
  - pose proof TOP_TCP_PORTS_valid as Hv. rewrite Forall_forall in Hv. auto.
  - by apply elem_of_parse_ports in Hq as [? _].
  - pose proof TOP_TCP_PORTS_valid as Hv. rewrite Forall_forall in Hv. auto.
Qed.

Lemma run_scan_of_parsed_ports_witness :
  exists results,
    run_scan lab [] "lab.example" (parse_ports (Some "80-82, 22,x,80")) 3 50
    = Returns results /\
    port <$> results = parse_ports (Some "80-82, 22,x,80") /\
    NoDup (port <$> results) /\
    Forall (fun r => 1 <= port r <= 65535) results.
Proof.
  apply (run_scan_of_parsed_ports lab [] "lab.example" "10.0.0.1"
           (Some "80-82, 22,x,80") 3 50).
  - reflexivity.
  - lia.
  - vm_compute. repeat constructor.
Defined.

Lemma status_probe_result (net : Net) (ip : string) (timeout : Q) (q : Z) :
  probe_settles net ip timeout q ->
  status (probe_result net ip timeout q) = "open" <->
  is_Some (opened_writer net ip timeout q).
Proof.
  intros Hq. unfold probe_result, opened_writer.
  destruct (eval_scan_port_settles _ _ _ _ Hq) as [r Hr]. rewrite Hr.
  revert Hr. unfold eval. rewrite run_scan_port.
  destruct (open_connection net ip q timeout) as [[reader writer]|e];
    cbn [fst].
  - destruct (fst (run_coro net (grab_banner reader writer (8 # 10))));
      intros ?; simplify_eq. split; [eauto|done].
  - destruct (catches _ e); intros ?; simplify_eq.
    split; [done|]. by intros [? ?].
Qed.

(** X12: the open ports [main] lists are the requested ports on which the
    connection was made, each once for each time it was requested, in
    ascending order. *)
Theorem open_ports_connected (net : Net) (sched : list nat)
    (target ip : string) (ports : list Z) (timeout : Q) (concurrency : Z) :
  resolve_target net target = Ok ip ->
  1 <= concurrency ->
  Forall (probe_settles net ip timeout) ports ->
  exists results,
    run_scan net sched target ports timeout concurrency = Returns results /\
    port <$> open_ports results
    = filter (fun q => is_Some (opened_writer net ip timeout q))
        (sorted id ports) /\
    Forall (fun r => status r = "open") (open_ports results) /\
    (length (open_ports results) <= length ports)%nat.
Proof.
  intros Hres Hconc Hsettle.
  rewrite (run_scan_returns net sched target ip) by done.
  eexists. split; [done|].
  assert (Forall (probe_settles net ip timeout) (sorted id ports)) as Hs
    by by rewrite sorted_Permutation.
  split; [|split].
  - unfold open_ports. induction Hs as [|q l Hq _ IH]; [done|].
    rewrite fmap_cons, !filter_cons.
    pose proof (status_probe_result net ip timeout q Hq) as Hiff.
    repeat case_decide; try tauto.
    rewrite fmap_cons, IH. by rewrite port_probe_result.
  - unfold open_ports. apply Forall_forall. intros r Hr.
    by apply list_elem_of_filter in Hr as [? _].
  - unfold open_ports. etrans; [apply length_filter|].
    by rewrite length_fmap, sorted_length.
Qed.

Lemma open_ports_connected_witness :
  exists results,
    run_scan lab [] "lab.example" [82; 22; 81; 80] 3 2 = Returns results /\
    port <$> open_ports results
    = filter (fun q => is_Some (opened_writer lab "10.0.0.1" 3 q))
        (sorted id [82; 22; 81; 80]) /\
    Forall (fun r => status r = "open") (open_ports results) /\
    (length (open_ports results) <= 4)%nat.
Proof.
  apply (open_ports_connected lab [] "lab.example" "10.0.0.1"
           [82; 22; 81; 80] 3 2).
  - reflexivity.
  - lia.
  - repeat constructor.
Defined.

(** ** The rows of the CSV report *)

Lemma length_replace (old new : ascii) (s : string) :
  String.length (replace old new s) = String.length s.
Proof. induction s as [|c s IH]; simpl; [done|]. by rewrite IH. Qed.

Lemma replace_none (old new : ascii) (s : string) :
  all_chars (fun c => negb (Ascii.eqb c old)) s = true -> replace old new s = s.
Proof.
  induction s as [|c s IH]; simpl; [done|].
  intros [Hc Hs]%andb_true_iff. apply negb_true_iff in Hc.
  by rewrite Hc, IH.
Qed.

Lemma replace_clears (old new : ascii) (f : ascii -> bool) (s : string) :
  f new = true -> (forall c, Ascii.eqb c old = false -> f c = true) ->
  all_chars f (replace old new s) = true.
Proof.
  intros Hnew Hf. induction s as [|c s IH]; simpl; [done|].
  rewrite IH, andb_true_r. destruct (Ascii.eqb c old) eqn:Hc; auto.
Qed.

Lemma replace_keeps (old new : ascii) (f : ascii -> bool) (s : string) :
  f new = true -> all_chars f s = true ->
  all_chars f (replace old new s) = true.
Proof.
  intros Hnew. induction s as [|c s IH]; simpl; [done|].
  intros [Hc Hs]%andb_true_iff. rewrite IH, andb_true_r by done.
  by destruct (Ascii.eqb c old).
Qed.

Lemma row_banner_clean (text : string) :
  all_chars no_line_break (replace "013" " " (replace "010" " " text)) = true.
Proof.
  assert (all_chars (fun c => negb (Ascii.eqb c "010"))
            (replace "013" " " (replace "010" " " text)) = true) as Hlf.
  { apply replace_keeps; [done|]. apply replace_clears; [done|].
    by intros c ->. }
  assert (all_chars (fun c => negb (Ascii.eqb c "013"))
            (replace "013" " " (replace "010" " " text)) = true) as Hcr.
  { apply replace_clears; [done|]. by intros c ->. }
  revert Hlf Hcr. generalize (replace "013" " " (replace "010" " " text)).
  intros s. induction s as [|c s IH]; simpl; [done|].
  intros [H1 Hs1]%andb_true_iff [H2 Hs2]%andb_true_iff.
  unfold no_line_break at 1. by rewrite H1, H2, IH.
Qed.

(** X11: [save_csv] gives the writer one row for each result, in the order
    of the results, with the port and the status of the result.  An absent
    service or banner becomes the empty text.  The banner cell holds no line
    feed and no carriage return: it is the banner with each of them replaced
    by a space, and the banner itself when it has none. *)
Theorem csv_rows_one_line_each (results : list PortResult) :
  length (csv_rows results) = length results /\
  Forall2
    (fun r row =>
       row_port row = port r /\
       row_status row = status r /\
       row_service row = default EmptyString (service r) /\
       all_chars no_line_break (row_banner row) = true /\
       String.length (row_banner row)
       = String.length (default EmptyString (banner r)) /\
       (all_chars no_line_break (default EmptyString (banner r)) = true ->
        row_banner row = default EmptyString (banner r)))
    results (csv_rows results).
Proof.
  assert (forall x, or_empty x = default EmptyString x) as Hor.
  { by intros [[|c s]|]. }
  split; [apply length_map|].
  induction results as [|r results IH]; [constructor|].
  constructor; [|done]. unfold csv_row. cbn [row_port row_status row_service row_banner].
  rewrite !Hor. split; [done|]. split; [done|]. split; [done|].
  split; [apply row_banner_clean|]. split; [by rewrite !length_replace|].
  generalize (default EmptyString (banner r)). intros text Htext.
  rewrite (replace_none "010"), replace_none; [done|..].
  - eapply all_chars_impl; [|done]. unfold no_line_break.
    by intros c [_ ?]%andb_true_iff.
  - eapply all_chars_impl; [|done]. unfold no_line_break.
    by intros c [? _]%andb_true_iff.
Qed.

(** ** [infer_service] and the letter case *)

Lemma lower_empty (s : string) : lower s = EmptyString -> s = EmptyString.
Proof. by destruct s. Qed.

(** X13: the banner heuristics do not depend on the letter case of the
    banner, an empty banner counts as no banner, and every label
    [infer_service] gives, from the table or from the banner, is one of the
    labels of the port table. *)
Theorem infer_service_case_and_labels (port : Z) :
  (forall b1 b2,
     lower b1 = lower b2 ->
     infer_service port (Some b1) = infer_service port (Some b2)) /\
  infer_service port (Some EmptyString) = infer_service port None /\
  (forall banner label,
     infer_service port banner = Some label ->
     exists q, SERVICE_MAP !! q = Some label).
Proof.
  split; [|split].
  - intros b1 b2 Hlow. unfold infer_service.
    destruct (SERVICE_MAP !! port); [done|].
    destruct b1 as [|c1 b1], b2 as [|c2 b2]; try done.
    cbn [truthy_str]. by rewrite Hlow.
  - unfold infer_service. by destruct (SERVICE_MAP !! port).
  - intros banner label. unfold infer_service.
    destruct (SERVICE_MAP !! port) as [l|] eqn:Hl; [intros [= <-]; eauto|].
    destruct banner as [text|]; [|done].
    destruct (truthy_str text); [|done].
    repeat (match goal with
            | |- context [if ?b then _ else _] => destruct b
            end;
            [intros [= <-];
             first [by exists 22 | by exists 80 | by exists 25
                   | by exists 3306 | by exists 3389]|]).
    done.
Qed.

Lemma infer_service_case_and_labels_witness :
  infer_service 9999 (Some "220 ESMTP Postfix")
  = infer_service 9999 (Some "220 esmtp POSTFIX").
Proof.
  apply (proj1 (infer_service_case_and_labels 9999)). reflexivity.
Defined.
